(** * LitCitGraph: the citation-graph engine of [litcitgraph/graphs.py]

    A shallow embedding of the graph mutation primitives
    ([add_cit_graph_node], [add_cit_graph_edge]), of the [CitationGraph]
    state and of the build orchestrator ([__initialise], [__iterate],
    [build_from_ids]), followed by the properties of the design document. *)

From stdpp Require Import gmap strings list fin_maps fin_sets pretty sorting.

Local Open Scope Z_scope.

(** ** Python values stored as node and edge attributes *)

Inductive value :=
  | VNone
  | VBool (b : bool)
  | VInt (z : Z)
  | VStr (s : string).

#[global] Instance value_eq_dec : EqDecision value.
Proof. solve_decision. Defined.

(** [str(x)] on the attribute values above. *)
Definition py_str (v : value) : string :=
  match v with
  | VNone => "None"
  | VBool true => "True"
  | VBool false => "False"
  | VInt z => pretty z
  | VStr s => s
  end.

(** [ScopusID] is an [int]; [PaperProperties] is a keyword dictionary. *)
Abbreviation ScopusID := Z (only parsing).
Abbreviation PaperProperties := (gmap string value) (only parsing).

(** ** The part of [networkx.DiGraph] that the module relies on

    A directed graph keeps one attribute dictionary per node and one per
    ordered pair of adjacent nodes. *)

Record DiGraph := mkDiGraph {
  nodes : gmap Z (gmap string value);
  edges : gmap (Z * Z) (gmap string value);
}.

Definition DiGraph_empty : DiGraph := mkDiGraph ∅ ∅.

(** [n in graph.nodes] *)
Definition has_node (g : DiGraph) (n : Z) : bool :=
  bool_decide (is_Some (nodes g !! n)).

(** [graph.has_edge(u, v)] *)
Definition has_edge (g : DiGraph) (u v : Z) : bool :=
  bool_decide (is_Some (edges g !! (u, v))).

(** [graph.add_node(n, **attr)]: a new node stores [attr]; on a node that
    exists the dictionary is updated with [attr]. *)
Definition add_node (g : DiGraph) (n : Z) (attr : gmap string value) : DiGraph :=
  match nodes g !! n with
  | None => mkDiGraph (<[n := attr]> (nodes g)) (edges g)
  | Some old => mkDiGraph (<[n := attr ∪ old]> (nodes g)) (edges g)
  end.

(** [graph.add_edge(u, v)] without attributes: missing end points are
    created with empty dictionaries, an existing edge keeps its data. *)
Definition add_edge (g : DiGraph) (u v : Z) : DiGraph :=
  let ensure n (ns : gmap Z (gmap string value)) :=
    match ns !! n with None => <[n := ∅]> ns | Some _ => ns end in
  mkDiGraph (ensure v (ensure u (nodes g)))
            (<[(u, v) := default ∅ (edges g !! (u, v))]> (edges g)).

(** [graph[u][v][key] = x]; [None] stands for the [KeyError] of a missing
    edge. *)
Definition setitem_edge (g : DiGraph) (u v : Z) (key : string) (x : value)
  : option DiGraph :=
  match edges g !! (u, v) with
  | Some d => Some (mkDiGraph (nodes g) (<[(u, v) := <[key := x]> d]> (edges g)))
  | None => None
  end.

(** ** Graph mutation primitives *)

Definition add_cit_graph_node
    (graph : DiGraph) (node : ScopusID) (node_props : PaperProperties) : DiGraph :=
  if negb (has_node graph node) then add_node graph node node_props
  else graph.

(** The subscript assignment of the last statement is guarded by the edge
    test just above it, see [add_cit_graph_edge_setitem_defined]. *)
Definition add_cit_graph_edge
    (graph : DiGraph)
    (parent_node : ScopusID) (parent_node_props : PaperProperties)
    (child_node : ScopusID) (child_node_props : PaperProperties)
    (edge_weight : option Z) : DiGraph :=
  let g1 := if negb (has_node graph parent_node)
            then add_node graph parent_node parent_node_props else graph in
  let g2 := if negb (has_node g1 child_node)
            then add_node g1 child_node child_node_props else g1 in
  let g3 := if negb (has_edge g2 parent_node child_node)
            then add_edge g2 parent_node child_node else g2 in
  match edge_weight with
  | Some w => default g3 (setitem_edge g3 parent_node child_node "weight" (VInt w))
  | None => g3
  end.

Arguments add_cit_graph_node : simpl never.
Arguments add_cit_graph_edge : simpl never.

(** A sequence of calls [add_cit_graph_node(graph, n, p)]. *)
Definition add_cit_graph_nodes (g : DiGraph) (calls : list (Z * gmap string value)) : DiGraph :=
  foldl (λ g c, add_cit_graph_node g c.1 c.2) g calls.

(** The attribute dictionary of the edge after the call, from the one
    (if any) before it. *)
Definition stamped (w : option Z) (d : gmap string value) : gmap string value :=
  match w with Some x => <["weight" := VInt x]> d | None => d end.

(** Repeated calls for one ordered pair, one weight argument per call. *)
Definition add_cit_graph_edge_many (g : DiGraph)
  (u : Z) (pp : gmap string value) (v : Z) (cp : gmap string value)
  (ws : list (option Z)) : DiGraph :=
  foldl (λ g w, add_cit_graph_edge g u pp v cp w) g ws.

(** States after each turn of a loop [for a in l] with body [f]. *)
Fixpoint scan {S A : Type} (f : S → A → S) (s : S) (l : list A) : list S :=
  match l with
  | [] => []
  | a :: l => f s a :: scan f (f s a) l
  end.

(** ** Python exceptions raised by the module *)

Inductive exn :=
  | ValueError (msg : string)
  | KeyError (key : value).

Definition result (A : Type) : Type := exn + A.

(** ** The loop body of [CitationGraph.transform_graphistry]

    The three statements executed on the attribute dictionary of one node of
    the copy. *)
Definition graphistry_node (d : gmap string value) : result (gmap string value) :=
  match d !! "scopus_id" with
  | None => inl (KeyError (VStr "scopus_id"))
  | Some sid =>
      let d := <["scopus_id" := VStr (py_str sid)]> d in
      match d !! "title" with
      | None => inl (KeyError (VStr "title"))
      | Some t =>
          let d := <["paper_title" := t]> d in
          inr (delete "title" d)
      end
  end.

(** [for node in export_graph.nodes: ...], in place on the node
    dictionaries of [g]; the first failing node aborts the loop. *)
Definition graphistry_nodes (g : DiGraph) : result DiGraph :=
  map_fold (λ node d acc,
              match acc with
              | inl e => inl e
              | inr g' =>
                  match graphistry_node d with
                  | inl e => inl e
                  | inr d' => inr (mkDiGraph (<[node := d']> (nodes g')) (edges g'))
                  end
              end)
           (inr g) (nodes g).

(** The attributes the loop body reads are there. *)
Definition has_export_attributes (d : gmap string value) : Prop :=
  is_Some (d !! "scopus_id") ∧ is_Some (d !! "title").

(** The attribute dictionary of an exported node. *)
Definition exported (d : gmap string value) : gmap string value :=
  match graphistry_node d with inr d' => d' | inl _ => d end.

(** ** Papers

    [litcitgraph.types] declares [PaperInfo]; the graph code only reads its
    [scopus_id] field, calls [graph_properties_as_dict] on it and stores it
    in sets, where papers are compared by value. *)

Class PaperOps (PaperInfo : Type) `{Countable PaperInfo} := {
  scopus_id : PaperInfo → ScopusID;
  graph_properties_as_dict : PaperInfo → PaperProperties;
}.

(** ** The lookup collaborator

    [litcitgraph.requests] talks to the Scopus service.  Its answers are not
    determined by the arguments, so both functions thread a state of the
    outside world.  [get_refs_from_scopus] is consumed as a finite sequence
    of [(parent, child)] pairs, [child] being [None] when the reference did
    not resolve.  Both are total: an exception escaping from the service is
    not part of this model. *)

Class Scopus (World PaperInfo : Type) `{Countable PaperInfo} := {
  get_from_scopus :
    World → string → string → Z → World * option PaperInfo;
  get_refs_from_scopus :
    World → gset PaperInfo → Z → World * list (PaperInfo * option PaperInfo);
}.

Section citation_graph.
Context {PaperInfo World : Type} `{Countable PaperInfo}.
Context `{!PaperOps PaperInfo} `{!Scopus World PaperInfo}.

(** *** State of a [CitationGraph] object

    [base] is the inherited [DiGraph]; [use_doi] is only annotated by the
    constructor and holds no value before the first build. *)
Record CitationGraph := mkCitationGraph {
  base : DiGraph;
  _name : string;
  use_doi : option bool;
  iter_depth : Z;
  papers_by_iter_depth : gmap Z (gset PaperInfo);
  retrievals_total : Z;
  retrievals_failed : Z;
}.

(** [CitationGraph(name)] *)
Definition CitationGraph_init (name : string) : CitationGraph :=
  mkCitationGraph DiGraph_empty name None 0 ∅ 0 0.

Definition with_base (f : DiGraph → DiGraph) (g : CitationGraph) :=
  mkCitationGraph (f (base g)) (_name g) (use_doi g) (iter_depth g)
    (papers_by_iter_depth g) (retrievals_total g) (retrievals_failed g).
Definition with_use_doi (b : bool) (g : CitationGraph) :=
  mkCitationGraph (base g) (_name g) (Some b) (iter_depth g)
    (papers_by_iter_depth g) (retrievals_total g) (retrievals_failed g).
Definition with_frontier (d : Z) (ps : gset PaperInfo) (g : CitationGraph) :=
  mkCitationGraph (base g) (_name g) (use_doi g) d
    (<[d := ps]> (papers_by_iter_depth g))
    (retrievals_total g) (retrievals_failed g).
Definition incr_total (g : CitationGraph) :=
  mkCitationGraph (base g) (_name g) (use_doi g) (iter_depth g)
    (papers_by_iter_depth g) (retrievals_total g + 1) (retrievals_failed g).
Definition incr_failed (g : CitationGraph) :=
  mkCitationGraph (base g) (_name g) (use_doi g) (iter_depth g)
    (papers_by_iter_depth g) (retrievals_total g) (retrievals_failed g + 1).

(** *** What the collaborator was asked and what it answered *)
Inductive event :=
  | EvGet (identifier id_type : string) (depth : Z) (answer : option PaperInfo)
  | EvRefs (papers : gset PaperInfo) (depth : Z)
  | EvPair (parent : PaperInfo) (child : option PaperInfo).

(** The program state: the outside world, the exchange with the
    collaborator so far, and the graph object being built in place. *)
Record machine := mkMachine {
  world : World;
  history : list event;
  self : CitationGraph;
}.

(** *** [CitationGraph.__initialise] *)

(** One turn of the loop over [ids]; [papers_init] is the local set. *)
Definition initialise_body (id_type : string)
    (st : machine * gset PaperInfo) (identifier : string)
  : machine * gset PaperInfo :=
  let '(m, papers_init) := st in
  let '(w, paper_info) :=
    get_from_scopus (world m) identifier id_type (iter_depth (self m)) in
  let h := history m ++ [EvGet identifier id_type (iter_depth (self m)) paper_info] in
  let g := incr_total (self m) in
  match paper_info with
  | None => (mkMachine w h (incr_failed g), papers_init)
  | Some paper_info =>
      let node_id := scopus_id paper_info in
      let node_props := graph_properties_as_dict paper_info in
      let g := with_base (λ b, add_cit_graph_node b node_id node_props) g in
      let papers_init :=
        if bool_decide (paper_info ∉ papers_init)
        then papers_init ∪ {[paper_info]} else papers_init in
      (mkMachine w h g, papers_init)
  end.

Definition __initialise (ids : list string) (use_doi : bool) (m : machine)
  : machine :=
  let m := mkMachine (world m) (history m) (with_use_doi use_doi (self m)) in
  let id_type := if use_doi then "doi" else "eid" in
  let '(m, papers_init) := foldl (initialise_body id_type) (m, ∅) ids in
  mkMachine (world m) (history m)
    (with_frontier (iter_depth (self m)) papers_init (self m)).

(** *** [CitationGraph.__iterate] *)

(** One turn of the loop over [references]. *)
Definition iterate_body
    (st : machine * gset PaperInfo) (pair : PaperInfo * option PaperInfo)
  : machine * gset PaperInfo :=
  let '(m, papers_iteration) := st in
  let '(parent, child) := pair in
  let h := history m ++ [EvPair parent child] in
  let g := incr_total (self m) in
  match child with
  | None => (mkMachine (world m) h (incr_failed g), papers_iteration)
  | Some child =>
      let papers_iteration :=
        if bool_decide (child ∉ papers_iteration) &&
           negb (has_node (base g) (scopus_id child))
        then papers_iteration ∪ {[child]} else papers_iteration in
      let g := with_base (λ b,
        add_cit_graph_edge b
          (scopus_id parent) (graph_properties_as_dict parent)
          (scopus_id child) (graph_properties_as_dict child) None) g in
      (mkMachine (world m) h g, papers_iteration)
  end.

Definition __iterate (m : machine) : machine * result () :=
  let target_iter_depth := iter_depth (self m) + 1 in
  match papers_by_iter_depth (self m) !! iter_depth (self m) with
  | None => (m, inl (KeyError (VInt (iter_depth (self m)))))
  | Some papers =>
      let '(w, references) :=
        get_refs_from_scopus (world m) papers target_iter_depth in
      let m := mkMachine w (history m ++ [EvRefs papers target_iter_depth]) (self m) in
      let '(m, papers_iteration) := foldl iterate_body (m, ∅) references in
      (mkMachine (world m) (history m)
         (with_frontier target_iter_depth papers_iteration (self m)),
       inr ())
  end.

(** *** [CitationGraph.build_from_ids] *)

(** [for it in range(n): self.__iterate()] *)
Fixpoint iterate_loop (n : nat) (m : machine) : machine * result () :=
  match n with
  | O => (m, inr ())
  | S n =>
      match __iterate m with
      | (m, inr _) => iterate_loop n m
      | (m, inl e) => (m, inl e)
      end
  end.

Definition build_from_ids
    (ids : list string) (use_doi : bool) (target_iter_depth : Z) (m : machine)
  : machine * result () :=
  if bool_decide (target_iter_depth < 0)
  then (m, inl (ValueError "Target depth must be non-negative!"))
  else iterate_loop (Z.to_nat target_iter_depth) (__initialise ids use_doi m).

(** *** Observable points of a build

    The states of the program at the loop boundaries of a build, in the
    order in which they are reached: on entry, before and after every
    turn of the loop of [__initialise], at its return, and likewise for
    every call of [__iterate]. *)

Definition initialise_trace (ids : list string) (use_doi : bool) (m : machine)
  : list machine :=
  let m0 := mkMachine (world m) (history m) (with_use_doi use_doi (self m)) in
  let id_type := if use_doi then "doi" else "eid" in
  m0 :: (fst <$> scan (initialise_body id_type) (m0, ∅) ids)
     ++ [__initialise ids use_doi m].

Definition iterate_trace (m : machine) : list machine :=
  match papers_by_iter_depth (self m) !! iter_depth (self m) with
  | None => []
  | Some papers =>
      let '(w, references) :=
        get_refs_from_scopus (world m) papers (iter_depth (self m) + 1) in
      let m0 := mkMachine w
        (history m ++ [EvRefs papers (iter_depth (self m) + 1)]) (self m) in
      m0 :: (fst <$> scan iterate_body (m0, ∅) references)
         ++ [(__iterate m).1]
  end.

Fixpoint loop_trace (n : nat) (m : machine) : list machine :=
  match n with
  | O => []
  | S n =>
      iterate_trace m ++
      match __iterate m with
      | (m, inr _) => loop_trace n m
      | (_, inl _) => []
      end
  end.

Definition build_trace
    (ids : list string) (use_doi : bool) (target_iter_depth : Z) (m : machine)
  : list machine :=
  m :: if bool_decide (target_iter_depth < 0) then []
       else initialise_trace ids use_doi m ++
            loop_trace (Z.to_nat target_iter_depth) (__initialise ids use_doi m).





(** A graph object right after construction, with no exchange with the
    collaborator yet. *)
Definition start (w : World) (name : string) : machine :=
  mkMachine w [] (CitationGraph_init name).

(** The collaborator's answers to the seed identifiers, asked in order. *)
Fixpoint resolve_seeds (w : World) (ids : list string) (id_type : string)
    (depth : Z) : World * list (option PaperInfo) :=
  match ids with
  | [] => (w, [])
  | identifier :: ids =>
      let '(w, a) := get_from_scopus w identifier id_type depth in
      let '(w, l) := resolve_seeds w ids id_type depth in
      (w, a :: l)
  end.

(** The node insertions a list of resolved papers gives rise to. *)
Definition node_calls (ps : list PaperInfo) : list (Z * gmap string value) :=
  (λ p, (scopus_id p, graph_properties_as_dict p)) <$> ps.

(** *** [CitationGraph.deepcopy] and [CitationGraph.transform_graphistry]

    Graph objects live in a store and are named by references; a method
    that mutates its receiver updates the store at that reference.
    [copy.deepcopy] allocates an object that shares nothing with its
    argument.  [None] is returned for a reference that names no object. *)

Definition deepcopy (σ : gmap positive CitationGraph) (r : positive)
  : option (gmap positive CitationGraph * positive) :=
  g ← σ !! r;
  let r' := fresh (dom σ) in
  Some (<[r' := g]> σ, r').

(** The loop runs on the copy; when it fails the copy, a local of the
    method, is unreachable and left out of the resulting store. *)
Definition transform_graphistry (σ : gmap positive CitationGraph) (r : positive)
  : option (gmap positive CitationGraph * result positive) :=
  '(σ', export_graph) ← deepcopy σ r;
  g ← σ' !! export_graph;
  match graphistry_nodes (base g) with
  | inl e => Some (σ, inl e)
  | inr b => Some (<[export_graph := with_base (λ _, b) g]> σ', inr export_graph)
  end.

(** *** Vocabulary of the properties *)

(** *** Atomic state changes of a build

    Everything a build does to the program state between two observable
    points is one of these steps. *)
Inductive step : relation machine :=
  | step_use_doi (m : machine) (b : bool) :
      step m (mkMachine (world m) (history m) (with_use_doi b (self m)))
  | step_seed (m : machine) (acc : gset PaperInfo) id_type identifier :
      step m (initialise_body id_type (m, acc) identifier).1
  | step_frontier (m : machine) d (acc : gset PaperInfo) :
      iter_depth (self m) ≤ d →
      step m (mkMachine (world m) (history m) (with_frontier d acc (self m)))
  | step_refs (m : machine) w (papers : gset PaperInfo) d :
      step m (mkMachine w (history m ++ [EvRefs papers d]) (self m))
  | step_pair (m : machine) (acc : gset PaperInfo) pair :
      step m (iterate_body (m, acc) pair).1.

(** The graph, the counters, the depth and the exchange with the
    collaborator only ever grow; an edge that appears has no attribute,
    an edge that exists keeps its attributes. *)
Definition grows : relation machine := λ m m',
  retrievals_total (self m) ≤ retrievals_total (self m')
  ∧ retrievals_failed (self m) ≤ retrievals_failed (self m')
  ∧ iter_depth (self m) ≤ iter_depth (self m')
  ∧ (∀ n a, nodes (base (self m)) !! n = Some a →
            nodes (base (self m')) !! n = Some a)
  ∧ (∀ e, edges (base (self m')) !! e = edges (base (self m)) !! e
          ∨ (edges (base (self m)) !! e = None
             ∧ edges (base (self m')) !! e = Some ∅))
  ∧ history m `prefix_of` history m'
  ∧ _name (self m) = _name (self m').


(** The papers of every recorded frontier are nodes, no depth beyond the
    current one has a frontier, and frontiers of different depths share
    no [scopus_id]. *)
Definition frontier_nodes (g : CitationGraph) : Prop :=
  ∀ d ps p, papers_by_iter_depth g !! d = Some ps → p ∈ ps →
            is_Some (nodes (base g) !! scopus_id p).
Definition keys_bounded (g : CitationGraph) : Prop :=
  ∀ d, is_Some (papers_by_iter_depth g !! d) → d ≤ iter_depth g.
Definition frontiers_disjoint (g : CitationGraph) : Prop :=
  ∀ d1 d2 ps1 ps2 p1 p2,
    d1 ≠ d2 →
    papers_by_iter_depth g !! d1 = Some ps1 →
    papers_by_iter_depth g !! d2 = Some ps2 →
    p1 ∈ ps1 → p2 ∈ ps2 → scopus_id p1 ≠ scopus_id p2.
Definition frontier_inv (g : CitationGraph) : Prop :=
  frontier_nodes g ∧ keys_bounded g ∧ frontiers_disjoint g.

(** *** [CitationGraph.name] and [CitationGraph.__repr__] *)

Definition name (g : CitationGraph) : string := _name g.

Definition __repr__ (g : CitationGraph) : string :=
  "CitationGraph(name=" +:+ name g +:+ ", "
  +:+ "iter_depth=" +:+ pretty (iter_depth g) +:+ ", "
  +:+ "number of nodes: " +:+ pretty (size (nodes (base g))) +:+ ", "
  +:+ "number of edges: " +:+ pretty (size (edges (base g))) +:+ ")".

(** *** Reading the exchange with the collaborator *)

(** The calls of [get_from_scopus]: identifier, scheme and depth. *)
Definition get_calls (h : list event) : list (string * string * Z) :=
  omap (λ e, match e with EvGet i t d _ => Some (i, t, d) | _ => None end) h.

(** The calls of [get_refs_from_scopus]: frontier and target depth. *)
Definition refs_calls (h : list event) : list (gset PaperInfo * Z) :=
  omap (λ e, match e with EvRefs ps d => Some (ps, d) | _ => None end) h.






End citation_graph.

Arguments CitationGraph PaperInfo {_ _}.
Arguments machine PaperInfo World {_ _}.
Arguments event PaperInfo {_ _}.

(** * A small bibliographic database

    A cites itself, C and one reference that does not
    resolve; B cites C; C cites A.  Only the identifiers ["id1"] (for A) and
    ["id2"] (for B) are known to the lookup, and ["id4"] for a fourth paper D
    whose only reference is D itself.  The outside world counts the
    calls answered. *)
Module Demo.

Definition paper : Type := Z * string.

#[export] Instance paper_ops : PaperOps paper := {|
  scopus_id := fst;
  graph_properties_as_dict p :=
    {[ "scopus_id" := VInt p.1; "title" := VStr p.2 ]};
|}.

Definition pA : paper := (1, "A").
Definition pB : paper := (2, "B").
Definition pC : paper := (3, "C").
Definition pD : paper := (4, "D").

Definition references (p : paper) : list (paper * option paper) :=
  if bool_decide (p = pA) then [(pA, Some pA); (pA, Some pC); (pA, None)]
  else if bool_decide (p = pB) then [(pB, Some pC)]
  else if bool_decide (p = pC) then [(pC, Some pA)]
  else if bool_decide (p = pD) then [(pD, Some pD)]
  else [].

#[export] Instance scopus : Scopus nat paper := {|
  get_from_scopus w identifier _ _ :=
    (S w, if String.eqb identifier "id1" then Some pA
          else if String.eqb identifier "id2" then Some pB
          else if String.eqb identifier "id4" then Some pD
          else None);
  get_refs_from_scopus w papers _ :=
    (S w, elements papers ≫= references);
|}.

Definition built (ids : list string) (k : Z) : machine paper nat :=
  (build_from_ids ids true k (start 0%nat "CitationGraph")).1.

End Demo.

(** * Properties *)

(** ** Graph mutation primitives *)

Section primitives.
Implicit Types (g graph : DiGraph) (n u v : Z) (a p : gmap string value).

Lemma has_node_true g n : has_node g n = true ↔ is_Some (nodes g !! n).
Proof. unfold has_node. by rewrite bool_decide_eq_true. Qed.

Lemma has_node_false g n : has_node g n = false ↔ nodes g !! n = None.
Proof.
  unfold has_node. by rewrite bool_decide_eq_false, eq_None_not_Some.
Qed.

Lemma has_edge_true g u v : has_edge g u v = true ↔ is_Some (edges g !! (u, v)).
Proof. unfold has_edge. by rewrite bool_decide_eq_true. Qed.

Lemma has_edge_false g u v : has_edge g u v = false ↔ edges g !! (u, v) = None.
Proof.
  unfold has_edge. by rewrite bool_decide_eq_false, eq_None_not_Some.
Qed.

(** The guarded node insertion, as one equation on the node table. *)
Lemma add_cit_graph_node_nodes g n p :
  nodes (add_cit_graph_node g n p) =
    match nodes g !! n with Some _ => nodes g | None => <[n := p]> (nodes g) end.
Proof.
  unfold add_cit_graph_node, add_node.
  destruct (has_node g n) eqn:E; simpl.
  - apply has_node_true in E as [a ->]. done.
  - apply has_node_false in E. by rewrite E.
Qed.

Lemma add_cit_graph_node_edges g n p :
  edges (add_cit_graph_node g n p) = edges g.
Proof.
  unfold add_cit_graph_node, add_node.
  destruct (has_node g n); simpl; [done|]. by destruct (nodes g !! n).
Qed.

Lemma add_cit_graph_node_present g n p :
  is_Some (nodes g !! n) → add_cit_graph_node g n p = g.
Proof.
  intros E%has_node_true. unfold add_cit_graph_node. by rewrite E.
Qed.

Lemma add_cit_graph_node_dom g n p :
  dom (nodes (add_cit_graph_node g n p)) = dom (nodes g) ∪ {[n]}.
Proof.
  rewrite add_cit_graph_node_nodes. destruct (nodes g !! n) eqn:E.
  - apply (elem_of_dom_2 (D := gset Z)) in E. set_solver.
  - rewrite dom_insert_L. set_solver.
Qed.

Lemma add_cit_graph_node_keeps g n p n' a :
  nodes g !! n' = Some a → nodes (add_cit_graph_node g n p) !! n' = Some a.
Proof.
  intros E. rewrite add_cit_graph_node_nodes.
  destruct (nodes g !! n) eqn:E'; [done|].
  rewrite lookup_insert_ne; [done|]. congruence.
Qed.


Lemma add_cit_graph_nodes_dom calls g :
  dom (nodes (add_cit_graph_nodes g calls)) = dom (nodes g) ∪ list_to_set calls.*1.
Proof.
  revert g. induction calls as [|[n p] calls IH]; intros g; simpl.
  - set_solver.
  - unfold add_cit_graph_nodes in *. simpl. rewrite IH, add_cit_graph_node_dom.
    set_solver.
Qed.

Lemma add_cit_graph_nodes_keeps calls g n a :
  nodes g !! n = Some a → nodes (add_cit_graph_nodes g calls) !! n = Some a.
Proof.
  revert g. induction calls as [|[n' p] calls IH]; intros g E; simpl; [done|].
  apply IH. by apply add_cit_graph_node_keeps.
Qed.

End primitives.

(** C4. Node upsert idempotence: after any sequence of calls of
    [add_cit_graph_node] the node set is the old node set joined with the
    identifiers of the calls, so that on an empty graph the node count is
    the number of distinct identifiers seen; a call for an identifier that
    is already a node returns the graph as it was, whatever properties are
    passed, and the attributes stored for a node survive every later
    sequence of calls. *)
Theorem C4_node_upsert_idempotence :
  (∀ (g : DiGraph) (calls : list (Z * gmap string value)),
     dom (nodes (add_cit_graph_nodes g calls)) = dom (nodes g) ∪ list_to_set calls.*1
     ∧ size (nodes (add_cit_graph_nodes g calls))
       = size (dom (nodes g) ∪ list_to_set calls.*1 : gset Z))
  ∧ (∀ calls : list (Z * gmap string value),
       size (nodes (add_cit_graph_nodes DiGraph_empty calls))
       = length (remove_dups calls.*1))
  ∧ (∀ (g : DiGraph) (n : Z) (a p : gmap string value),
       nodes g !! n = Some a →
       add_cit_graph_node g n p = g
       ∧ nodes (add_cit_graph_node g n p) !! n = Some a)
  ∧ (∀ (g : DiGraph) (n : Z) (a : gmap string value) calls,
       nodes g !! n = Some a →
       nodes (add_cit_graph_nodes g calls) !! n = Some a).
Proof.
  split_and!.
  - intros g calls. split; [apply add_cit_graph_nodes_dom|].
    by rewrite <- add_cit_graph_nodes_dom, size_dom.
  - intros calls.
    transitivity (size (dom (nodes (add_cit_graph_nodes DiGraph_empty calls)))).
    { symmetry. apply size_dom. }
    rewrite add_cit_graph_nodes_dom. simpl.
    rewrite dom_empty_L, (left_id_L ∅ (∪)).
    replace (list_to_set calls.*1 : gset Z)
      with (list_to_set (remove_dups calls.*1) : gset Z).
    { apply size_list_to_set, NoDup_remove_dups. }
    apply set_eq. intros x.
    by rewrite !elem_of_list_to_set, elem_of_remove_dups.
  - intros g n a p E.
    rewrite add_cit_graph_node_present by eauto. done.
  - intros g n a calls E. by apply add_cit_graph_nodes_keeps.
Qed.

Section edge_upsert.
Implicit Types (g graph : DiGraph) (u v : Z) (pp cp : gmap string value)
  (w : option Z).


Lemma add_edge_nodes_present g u v :
  is_Some (nodes g !! u) → is_Some (nodes g !! v) →
  nodes (add_edge g u v) = nodes g.
Proof.
  intros [a Ea] [b Eb]. unfold add_edge. simpl. by rewrite Ea, Eb.
Qed.

Lemma add_cit_graph_edge_nodes g u pp v cp w :
  nodes (add_cit_graph_edge g u pp v cp w)
  = nodes (add_cit_graph_node (add_cit_graph_node g u pp) v cp).
Proof.
  unfold add_cit_graph_edge.
  change (if negb (has_node g u) then add_node g u pp else g)
    with (add_cit_graph_node g u pp).
  set (g1 := add_cit_graph_node g u pp).
  change (if negb (has_node g1 v) then add_node g1 v cp else g1)
    with (add_cit_graph_node g1 v cp).
  set (g2 := add_cit_graph_node g1 v cp).
  assert (Hu : is_Some (nodes g2 !! u)).
  { apply elem_of_dom. subst g2 g1.
    rewrite !add_cit_graph_node_dom. set_solver. }
  assert (Hv : is_Some (nodes g2 !! v)).
  { apply elem_of_dom. subst g2.
    rewrite add_cit_graph_node_dom. set_solver. }
  assert (E3 : nodes (if negb (has_edge g2 u v) then add_edge g2 u v else g2)
               = nodes g2).
  { destruct (has_edge g2 u v); simpl; [done|].
    by apply add_edge_nodes_present. }
  destruct w as [x|]; [|done].
  unfold setitem_edge.
  destruct (edges _ !! (u, v)); simpl; done.
Qed.

Lemma add_cit_graph_edge_edges g u pp v cp w :
  edges (add_cit_graph_edge g u pp v cp w)
  = <[(u, v) := stamped w (default ∅ (edges g !! (u, v)))]> (edges g).
Proof.
  unfold add_cit_graph_edge.
  change (if negb (has_node g u) then add_node g u pp else g)
    with (add_cit_graph_node g u pp).
  set (g1 := add_cit_graph_node g u pp).
  change (if negb (has_node g1 v) then add_node g1 v cp else g1)
    with (add_cit_graph_node g1 v cp).
  set (g2 := add_cit_graph_node g1 v cp).
  assert (E2 : edges g2 = edges g).
  { subst g2 g1. by rewrite !add_cit_graph_node_edges. }
  set (g3 := if negb (has_edge g2 u v) then add_edge g2 u v else g2).
  assert (E3 : edges g3 = <[(u, v) := default ∅ (edges g !! (u, v))]> (edges g)).
  { subst g3. destruct (has_edge g2 u v) eqn:E; simpl.
    - apply has_edge_true in E as [d Ed]. rewrite E2 in Ed.
      rewrite E2, Ed. simpl. by rewrite insert_id.
    - by rewrite E2. }
  destruct w as [x|]; simpl; [|done].
  unfold setitem_edge. rewrite E3, lookup_insert_eq. simpl.
  by rewrite insert_insert_eq.
Qed.

(** The subscript assignment [graph[parent][child]['weight'] = w] never
    raises: the edge exists when it is reached. *)
Lemma add_cit_graph_edge_setitem_defined g u pp v cp (x : value) :
  is_Some (setitem_edge (add_cit_graph_edge g u pp v cp None) u v "weight" x).
Proof.
  unfold setitem_edge.
  rewrite add_cit_graph_edge_edges, lookup_insert_eq. eauto.
Qed.

Lemma add_cit_graph_edge_lookup g u pp v cp w :
  edges (add_cit_graph_edge g u pp v cp w) !! (u, v)
  = Some (stamped w (default ∅ (edges g !! (u, v)))).
Proof. by rewrite add_cit_graph_edge_edges, lookup_insert_eq. Qed.

Lemma add_cit_graph_edge_lookup_ne g u pp v cp w (e : Z * Z) :
  e ≠ (u, v) → edges (add_cit_graph_edge g u pp v cp w) !! e = edges g !! e.
Proof. intros. by rewrite add_cit_graph_edge_edges, lookup_insert_ne. Qed.

Lemma add_cit_graph_edge_dom g u pp v cp w :
  dom (edges (add_cit_graph_edge g u pp v cp w)) = dom (edges g) ∪ {[(u, v)]}.
Proof. rewrite add_cit_graph_edge_edges, dom_insert_L. set_solver. Qed.

Lemma add_cit_graph_edge_nodes_dom g u pp v cp w :
  dom (nodes (add_cit_graph_edge g u pp v cp w)) = dom (nodes g) ∪ {[u; v]}.
Proof.
  rewrite add_cit_graph_edge_nodes, !add_cit_graph_node_dom. set_solver.
Qed.

Lemma add_cit_graph_edge_keeps g u pp v cp w n a :
  nodes g !! n = Some a → nodes (add_cit_graph_edge g u pp v cp w) !! n = Some a.
Proof.
  intros E. rewrite add_cit_graph_edge_nodes.
  by do 2 apply add_cit_graph_node_keeps.
Qed.


Lemma add_cit_graph_edge_many_dom ws g u pp v cp :
  ws ≠ [] →
  dom (edges (add_cit_graph_edge_many g u pp v cp ws)) = dom (edges g) ∪ {[(u, v)]}.
Proof.
  revert g. induction ws as [|w ws IH]; intros g Hne; [done|].
  unfold add_cit_graph_edge_many in *. simpl.
  destruct ws as [|w' ws].
  - simpl. apply add_cit_graph_edge_dom.
  - rewrite IH by done. rewrite add_cit_graph_edge_dom. set_solver.
Qed.

End edge_upsert.

(** C5. Edge upsert semantics of [add_cit_graph_edge]: after the call both
    end points are nodes, a node that existed keeps its attributes, an
    absent parent is created with the parent properties and an absent child
    (other than the parent itself) with the child properties, and no other
    node changes; the edge set gains at most the pair [(parent, child)], and
    any number of further calls for that pair leaves the number of edges
    where the first call put it; a call with a weight stores it under
    ["weight"] over whatever was there and keeps the other edge attributes;
    a call without a weight leaves the attributes of an existing edge alone
    and gives a fresh edge an empty attribute dictionary. *)
Theorem C5_edge_upsert_semantics
    (g : DiGraph) (u v : Z) (pp cp : gmap string value) (w : option Z) :
  let g' := add_cit_graph_edge g u pp v cp w in
  (is_Some (nodes g' !! u) ∧ is_Some (nodes g' !! v))
  ∧ (∀ n a, nodes g !! n = Some a → nodes g' !! n = Some a)
  ∧ (nodes g !! u = None → nodes g' !! u = Some pp)
  ∧ (nodes g !! v = None → v ≠ u → nodes g' !! v = Some cp)
  ∧ (∀ n, n ≠ u → n ≠ v → nodes g' !! n = nodes g !! n)
  ∧ dom (edges g') = dom (edges g) ∪ {[(u, v)]}
  ∧ (∀ e, e ≠ (u, v) → edges g' !! e = edges g !! e)
  ∧ size (edges g') = (size (edges g) + (if has_edge g u v then 0 else 1))%nat
  ∧ (∀ pp' cp' ws,
       size (edges (add_cit_graph_edge_many g' u pp' v cp' ws)) = size (edges g'))
  ∧ (∀ x, w = Some x →
       ∃ d, edges g' !! (u, v) = Some d
            ∧ d !! "weight" = Some (VInt x)
            ∧ ∀ k, k ≠ "weight" → d !! k = edges g !! (u, v) ≫= (.!! k))
  ∧ (w = None →
       edges g' !! (u, v) = Some (default ∅ (edges g !! (u, v)))
       ∧ (∀ d, edges g !! (u, v) = Some d → edges g' !! (u, v) = Some d)
       ∧ (edges g !! (u, v) = None → edges g' !! (u, v) = Some ∅)).
Proof.
  intros g'. subst g'. split_and!.
  - apply elem_of_dom. rewrite add_cit_graph_edge_nodes_dom. set_solver.
  - apply elem_of_dom. rewrite add_cit_graph_edge_nodes_dom. set_solver.
  - intros n a. apply add_cit_graph_edge_keeps.
  - intros E. rewrite add_cit_graph_edge_nodes.
    apply add_cit_graph_node_keeps.
    by rewrite add_cit_graph_node_nodes, E, lookup_insert_eq.
  - intros E Hne. rewrite add_cit_graph_edge_nodes, add_cit_graph_node_nodes.
    assert (E1 : nodes (add_cit_graph_node g u pp) !! v = None).
    { rewrite add_cit_graph_node_nodes. destruct (nodes g !! u); [done|].
      by rewrite lookup_insert_ne. }
    by rewrite E1, lookup_insert_eq.
  - intros n Hu Hv.
    rewrite add_cit_graph_edge_nodes, !add_cit_graph_node_nodes.
    repeat case_match; rewrite ?lookup_insert_ne by done; done.
  - apply add_cit_graph_edge_dom.
  - intros e. apply add_cit_graph_edge_lookup_ne.
  - rewrite add_cit_graph_edge_edges.
    destruct (has_edge g u v) eqn:E.
    + apply has_edge_true in E as [d Ed].
      rewrite map_size_insert_Some by eauto. lia.
    + apply has_edge_false in E. rewrite map_size_insert_None by done. lia.
  - intros pp' cp' ws.
    rewrite <- !(size_dom (D := gset (Z * Z))).
    destruct ws as [|w' ws]; [done|].
    rewrite add_cit_graph_edge_many_dom by done.
    rewrite add_cit_graph_edge_dom. f_equal. set_solver.
  - intros x ->. eexists. split; [apply add_cit_graph_edge_lookup|]. simpl.
    split; [by rewrite lookup_insert_eq|].
    intros k Hk. rewrite lookup_insert_ne by done.
    destruct (edges g !! (u, v)); simpl; [done|]. by rewrite lookup_empty.
  - intros ->. rewrite add_cit_graph_edge_lookup. simpl.
    split_and!; [done| |]; by intros; simplify_option_eq.
Qed.

(** ** Further properties of the mutation primitives *)

Lemma union_first_wins (N L : gmap Z (gmap string value)) n p :
  match N !! n with Some _ => N | None => <[n := p]> N end ∪ L
  = N ∪ <[n := p]> L.
Proof.
  apply map_eq. intros i. destruct (N !! n) as [a|] eqn:E.
  - rewrite !lookup_union. destruct (decide (i = n)) as [->|Hne].
    + rewrite E, lookup_insert_eq. by destruct (L !! n).
    + by rewrite lookup_insert_ne.
  - rewrite <- insert_union_l. by rewrite insert_union_r.
Qed.

Lemma add_cit_graph_nodes_normal_form calls (g : DiGraph) :
  add_cit_graph_nodes g calls = mkDiGraph (nodes g ∪ list_to_map calls) (edges g).
Proof.
  revert g. induction calls as [|[n p] calls IH]; intros g.
  - simpl. rewrite (right_id_L ∅ (∪)). by destruct g.
  - change (add_cit_graph_nodes g ((n, p) :: calls))
      with (add_cit_graph_nodes (add_cit_graph_node g n p) calls).
    rewrite IH, add_cit_graph_node_nodes, add_cit_graph_node_edges.
    by rewrite list_to_map_cons, union_first_wins.
Qed.

(** X1. First insertion wins: after any sequence of calls of
    [add_cit_graph_node] the node table is the old table, completed with the
    properties of the first call made for each identifier that was absent;
    the edges are untouched.  Hence the attributes a node ends up with are
    those of the graph if it was a node, else those of the earliest call for
    it, and for calls with pairwise distinct identifiers the order of the
    calls is irrelevant. *)
Theorem X1_node_upserts_first_wins (g : DiGraph) (calls : list (Z * gmap string value)) :
  add_cit_graph_nodes g calls = mkDiGraph (nodes g ∪ list_to_map calls) (edges g)
  ∧ (∀ n a, nodes g !! n = None →
            nodes (add_cit_graph_nodes g calls) !! n = Some a ↔
            ∃ i, calls !! i = Some (n, a)
                 ∧ ∀ j b, calls !! j = Some (n, b) → (i ≤ j)%nat)
  ∧ (∀ calls', NoDup calls.*1 → calls ≡ₚ calls' →
               add_cit_graph_nodes g calls' = add_cit_graph_nodes g calls).
Proof.
  split_and!.
  - apply add_cit_graph_nodes_normal_form.
  - intros n a Hn. rewrite add_cit_graph_nodes_normal_form. simpl.
    rewrite lookup_union_r by done. clear Hn g.
    induction calls as [|[n' p] calls IH].
    + simpl. rewrite lookup_empty. split; [done|]. by intros (i & Hi & _).
    + rewrite list_to_map_cons. destruct (decide (n' = n)) as [->|Hne].
      * rewrite lookup_insert_eq. split.
        -- intros [= ->]. exists 0%nat. split; [done|]. intros; lia.
        -- intros ([|i] & Hi & Hmin).
           ++ by injection Hi as ->.
           ++ specialize (Hmin 0%nat p eq_refl). lia.
      * rewrite lookup_insert_ne by done. rewrite IH. split.
        -- intros (i & Hi & Hmin). exists (S i). split; [done|].
           intros [|j] b Hj; simpl in Hj; [congruence|].
           specialize (Hmin j b Hj). lia.
        -- intros ([|i] & Hi & Hmin); simpl in Hi; [congruence|].
           exists i. split; [done|]. intros j b Hj.
           specialize (Hmin (S j) b Hj). lia.
  - intros calls' Hnd Hperm. rewrite !add_cit_graph_nodes_normal_form.
    f_equal. f_equal. symmetry. by apply list_to_map_proper.
Qed.

Lemma add_cit_graph_edge_normal_form (g : DiGraph) u pp v cp w :
  add_cit_graph_edge g u pp v cp w
  = mkDiGraph (nodes g ∪ list_to_map [(u, pp); (v, cp)])
              (<[(u, v) := stamped w (default ∅ (edges g !! (u, v)))]> (edges g)).
Proof.
  pose proof (add_cit_graph_edge_nodes g u pp v cp w) as Hn.
  pose proof (add_cit_graph_edge_edges g u pp v cp w) as He.
  destruct (add_cit_graph_edge g u pp v cp w) as [N E]. simpl in *.
  rewrite Hn, He. f_equal.
  change (add_cit_graph_node (add_cit_graph_node g u pp) v cp)
    with (add_cit_graph_nodes g [(u, pp); (v, cp)]).
  by rewrite add_cit_graph_nodes_normal_form.
Qed.

Lemma stamped_idemp w (d : gmap string value) :
  stamped w (stamped w d) = stamped w d.
Proof. destruct w; simpl; [|done]. by rewrite insert_insert_eq. Qed.

(** X2. The edge upsert as a composition, and its idempotence.  A call of
    [add_cit_graph_edge] does what two calls of [add_cit_graph_node] (parent
    first, then child) followed by one write of the edge dictionary do; so
    on a self-loop over an absent node the parent properties are stored and
    the child properties are dropped.  Repeating a call with the same
    arguments leaves the graph exactly as the first call left it. *)
Theorem X2_edge_upsert_composition (g : DiGraph) u pp v cp w :
  let g' := add_cit_graph_edge g u pp v cp w in
  g' = mkDiGraph
         (nodes (add_cit_graph_node (add_cit_graph_node g u pp) v cp))
         (<[(u, v) := stamped w (default ∅ (edges g !! (u, v)))]> (edges g))
  ∧ (nodes g !! u = None →
     nodes (add_cit_graph_edge g u pp u cp w) !! u = Some pp)
  ∧ add_cit_graph_edge g' u pp v cp w = g'.
Proof.
  intros g'. subst g'. split_and!.
  - pose proof (add_cit_graph_edge_nodes g u pp v cp w) as Hn.
    pose proof (add_cit_graph_edge_edges g u pp v cp w) as He.
    destruct (add_cit_graph_edge g u pp v cp w) as [N E]. simpl in *.
    by rewrite Hn, He.
  - intros Hu. rewrite add_cit_graph_edge_normal_form. simpl.
    rewrite lookup_union_r by done. by rewrite lookup_insert_eq.
  - rewrite !add_cit_graph_edge_normal_form. simpl. f_equal.
    + apply map_eq. intros i. rewrite !lookup_union.
      by destruct (nodes g !! i), (_ !! i).
    + rewrite lookup_insert_eq. simpl.
      by rewrite stamped_idemp, insert_insert_eq.
Qed.

Lemma add_cit_graph_edge_many_lookup ws (g : DiGraph) u pp v cp :
  ws ≠ [] →
  edges (add_cit_graph_edge_many g u pp v cp ws) !! (u, v)
  = Some (foldl (λ d w, stamped w d) (default ∅ (edges g !! (u, v))) ws).
Proof.
  revert g. induction ws as [|w ws IH]; intros g Hne; [done|].
  unfold add_cit_graph_edge_many in *. cbn [foldl].
  destruct ws as [|w' ws].
  - simpl. apply add_cit_graph_edge_lookup.
  - rewrite IH by done. by rewrite add_cit_graph_edge_lookup.
Qed.

Lemma foldl_stamped_weight ws (d : gmap string value) :
  foldl (λ d w, stamped w d) d ws !! "weight"
  = match last (omap id ws) with
    | Some x => Some (VInt x)
    | None => d !! "weight"
    end.
Proof.
  revert d. induction ws as [|w ws IH] using rev_ind; intros d; [done|].
  rewrite foldl_app, omap_app, last_app. simpl. destruct w as [x|]; simpl.
  - by rewrite lookup_insert_eq.
  - apply IH.
Qed.

(** X3. The last weight wins: after a non-empty series of calls of
    [add_cit_graph_edge] for one ordered pair, the edge carries the weight
    of the latest call that gave one; if no call gave a weight it carries
    the weight it had before the series, or none if it did not exist.
    Every other attribute of the edge is as before the series. *)
Theorem X3_edge_last_weight_wins (g : DiGraph) u pp v cp (ws : list (option Z)) :
  ws ≠ [] →
  ∃ d, edges (add_cit_graph_edge_many g u pp v cp ws) !! (u, v) = Some d
       ∧ d !! "weight"
         = match last (omap id ws) with
           | Some x => Some (VInt x)
           | None => edges g !! (u, v) ≫= (.!! "weight")
           end
       ∧ ∀ key, key ≠ "weight" →
                d !! key = edges g !! (u, v) ≫= (.!! key).
Proof.
  intros Hne. eexists. split; [by apply add_cit_graph_edge_many_lookup|].
  split.
  - rewrite foldl_stamped_weight. destruct (last (omap id ws)); [done|].
    destruct (edges g !! (u, v)); simpl; [done|]. by rewrite lookup_empty.
  - intros key Hkey. clear Hne.
    assert (Hfold : ∀ d : gmap string value,
              foldl (λ d w, stamped w d) d ws !! key = d !! key).
    { induction ws as [|w ws IH]; intros d; [done|]. simpl. rewrite IH.
      destruct w; simpl; [|done]. by rewrite lookup_insert_ne. }
    rewrite Hfold. destruct (edges g !! (u, v)); simpl; [done|].
    by rewrite lookup_empty.
Qed.


(** ** Loops and their intermediate states *)

Section scan.
Context {M S A : Type} (R : relation M) (π : S → M) (f : S → A → S).

Lemma scan_last (l : list A) (s : S) (pre : list S) :
  last (pre ++ s :: scan f s l) = Some (foldl f s l).
Proof.
  revert s pre. induction l as [|a l IH]; intros s pre; simpl.
  - by rewrite last_snoc.
  - by rewrite (cons_middle s), (assoc_L (++)), IH.
Qed.

(** A loop whose every turn is an [R]-step, followed by an [R]-step to
    [t], yields an [R]-chain. *)
Lemma scan_chain (l : list A) (s : S) (t : M) (rest : list M) :
  (∀ s a, R (π s) (π (f s a))) →
  R (π (foldl f s l)) t →
  Sorted R (t :: rest) →
  Sorted R (π s :: (π <$> scan f s l) ++ t :: rest).
Proof.
  intros Hf. revert s. induction l as [|a l IH]; intros s Ht Hrest; simpl in *.
  - constructor; [done|]. by constructor.
  - constructor; [by apply IH|]. constructor. apply Hf.
Qed.
End scan.

Section build.
Context {PaperInfo World : Type} `{Countable PaperInfo}.
Context `{!PaperOps PaperInfo} `{!Scopus World PaperInfo}.
Implicit Types (m : machine PaperInfo World) (g : CitationGraph PaperInfo)
  (acc : gset PaperInfo) (h : list (event PaperInfo)).

(** *** The loop bodies, with the collaborator's answer named *)

Lemma initialise_body_eq id_type m acc identifier w a :
  get_from_scopus (world m) identifier id_type (iter_depth (self m)) = (w, a) →
  initialise_body id_type (m, acc) identifier =
    let h := history m ++ [EvGet identifier id_type (iter_depth (self m)) a] in
    match a with
    | None => (mkMachine w h (incr_failed (incr_total (self m))), acc)
    | Some p =>
        (mkMachine w h
           (with_base (λ b, add_cit_graph_node b (scopus_id p)
                              (graph_properties_as_dict p))
              (incr_total (self m))),
         if bool_decide (p ∉ acc) then acc ∪ {[p]} else acc)
    end.
Proof. intros E. unfold initialise_body. rewrite E. by destruct a. Qed.

Lemma iterate_body_eq m acc parent child :
  iterate_body (m, acc) (parent, child) =
    let h := history m ++ [EvPair parent child] in
    match child with
    | None => (mkMachine (world m) h (incr_failed (incr_total (self m))), acc)
    | Some c =>
        (mkMachine (world m) h
           (with_base (λ b, add_cit_graph_edge b
                              (scopus_id parent) (graph_properties_as_dict parent)
                              (scopus_id c) (graph_properties_as_dict c) None)
              (incr_total (self m))),
         if bool_decide (c ∉ acc) && negb (has_node (base (self m)) (scopus_id c))
         then acc ∪ {[c]} else acc)
    end.
Proof. by destruct child. Qed.

(** *** [__iterate] and the loop of [build_from_ids] *)

Lemma iterate_KeyError m :
  papers_by_iter_depth (self m) !! iter_depth (self m) = None →
  __iterate m = (m, inl (KeyError (VInt (iter_depth (self m))))).
Proof. intros E. unfold __iterate. by rewrite E. Qed.

Lemma iterate_ok m papers w refs :
  papers_by_iter_depth (self m) !! iter_depth (self m) = Some papers →
  get_refs_from_scopus (world m) papers (iter_depth (self m) + 1) = (w, refs) →
  __iterate m =
    (let m0 := mkMachine w
       (history m ++ [EvRefs papers (iter_depth (self m) + 1)]) (self m) in
     let st := foldl iterate_body (m0, ∅) refs in
     mkMachine (world st.1) (history st.1)
       (with_frontier (iter_depth (self m) + 1) st.2 (self st.1)),
     inr ()).
Proof.
  intros E Er. unfold __iterate. rewrite E, Er. simpl.
  by destruct (foldl _ _ _).
Qed.

Lemma iterate_trace_ok m papers w refs :
  papers_by_iter_depth (self m) !! iter_depth (self m) = Some papers →
  get_refs_from_scopus (world m) papers (iter_depth (self m) + 1) = (w, refs) →
  iterate_trace m =
    let m0 := mkMachine w
       (history m ++ [EvRefs papers (iter_depth (self m) + 1)]) (self m) in
    m0 :: (fst <$> scan iterate_body (m0, ∅) refs) ++ [(__iterate m).1].
Proof. intros E Er. unfold iterate_trace. by rewrite E, Er. Qed.

Lemma initialise_eq ids use_doi m :
  __initialise ids use_doi m =
    let m0 := mkMachine (world m) (history m) (with_use_doi use_doi (self m)) in
    let st := foldl (initialise_body (if use_doi then "doi" else "eid"))
                (m0, ∅) ids in
    mkMachine (world st.1) (history st.1)
      (with_frontier (iter_depth (self st.1)) st.2 (self st.1)).
Proof. unfold __initialise. simpl. by destruct (foldl _ _ _). Qed.

(** *** What the loops leave alone *)

Lemma foldl_iterate_body_frame refs (st : machine PaperInfo World * gset PaperInfo) :
  let st' := foldl iterate_body st refs in
  world st'.1 = world st.1
  ∧ iter_depth (self st'.1) = iter_depth (self st.1)
  ∧ papers_by_iter_depth (self st'.1) = papers_by_iter_depth (self st.1)
  ∧ use_doi (self st'.1) = use_doi (self st.1)
  ∧ _name (self st'.1) = _name (self st.1).
Proof.
  revert st. induction refs as [|[pa c] refs IH]; intros [m acc]; [done|].
  cbn [foldl]. specialize (IH (iterate_body (m, acc) (pa, c))).
  rewrite iterate_body_eq in *. by destruct c.
Qed.

Lemma foldl_initialise_body_frame id_type ids
    (st : machine PaperInfo World * gset PaperInfo) :
  let st' := foldl (initialise_body id_type) st ids in
  iter_depth (self st'.1) = iter_depth (self st.1)
  ∧ papers_by_iter_depth (self st'.1) = papers_by_iter_depth (self st.1)
  ∧ use_doi (self st'.1) = use_doi (self st.1)
  ∧ _name (self st'.1) = _name (self st.1)
  ∧ edges (base (self st'.1)) = edges (base (self st.1)).
Proof.
  revert st. induction ids as [|i ids IH]; intros [m acc]; [done|].
  cbn [foldl]. specialize (IH (initialise_body id_type (m, acc) i)).
  destruct (get_from_scopus (world m) i id_type (iter_depth (self m)))
    as [w a] eqn:E.
  rewrite (initialise_body_eq _ _ _ _ _ _ E) in *.
  destruct a; simpl in *; [|done].
  by rewrite add_cit_graph_node_edges in IH.
Qed.


Lemma initialise_trace_chain ids use_doi m rest :
  Sorted step (__initialise ids use_doi m :: rest) →
  Sorted step (m :: initialise_trace ids use_doi m ++ rest).
Proof.
  intros Hrest. unfold initialise_trace. simpl.
  constructor; [|constructor; apply step_use_doi].
  rewrite <- (assoc_L (++)). simpl.
  set (m0 := mkMachine _ _ _).
  apply (scan_chain step fst (initialise_body (if use_doi then "doi" else "eid"))
           ids (m0, ∅)); [| |done].
  - intros [m' acc] a. apply step_seed.
  - rewrite initialise_eq. simpl. fold m0. apply step_frontier. lia.
Qed.

Lemma iterate_trace_chain m rest :
  Sorted step ((__iterate m).1 :: rest) →
  Sorted step (m :: iterate_trace m ++ rest).
Proof.
  intros Hrest.
  destruct (papers_by_iter_depth (self m) !! iter_depth (self m))
    as [papers|] eqn:E.
  - destruct (get_refs_from_scopus (world m) papers (iter_depth (self m) + 1))
      as [w refs] eqn:Er.
    rewrite (iterate_trace_ok _ _ _ _ E Er). simpl.
    constructor; [|constructor; apply step_refs].
    rewrite <- (assoc_L (++)). simpl.
    set (m0 := mkMachine _ _ _).
    apply (scan_chain step fst iterate_body refs (m0, ∅)); [| |done].
    + intros [m' acc] a. apply step_pair.
    + rewrite (iterate_ok _ _ _ _ E Er). simpl. fold m0.
      destruct (foldl iterate_body (m0, ∅) refs) as [m1 acc1] eqn:Ef. simpl.
      apply step_frontier.
      pose proof (foldl_iterate_body_frame refs (m0, ∅)) as (_ & Hd & _).
      rewrite Ef in Hd. simpl in Hd. lia.
  - rewrite (iterate_KeyError _ E) in Hrest. unfold iterate_trace. rewrite E.
    simpl in *. inversion Hrest as [|?? Hs Hh]; subst.
    destruct rest as [|r rest]; [repeat constructor|].
    inversion Hh; subst. inversion Hs; subst. constructor; [done|]. by constructor.
Qed.

Lemma loop_trace_chain n m :
  Sorted step (m :: loop_trace n m).
Proof.
  revert m. induction n as [|n IH]; intros m; simpl.
  - repeat constructor.
  - apply iterate_trace_chain.
    destruct (__iterate m) as [m' [e|[]]]; simpl; [repeat constructor|apply IH].
Qed.

(** The observable points of a build form a chain of steps. *)
Lemma build_trace_chain ids use_doi k m :
  Sorted step (build_trace ids use_doi k m).
Proof.
  unfold build_trace. case_bool_decide; [repeat constructor|].
  apply initialise_trace_chain, loop_trace_chain.
Qed.

Lemma initialise_trace_last ids use_doi m pre :
  last (pre ++ initialise_trace ids use_doi m) = Some (__initialise ids use_doi m).
Proof.
  unfold initialise_trace. rewrite app_comm_cons, (assoc_L (++)).
  apply last_snoc.
Qed.

Lemma loop_trace_last n m pre :
  last (pre ++ m :: loop_trace n m) = Some (iterate_loop n m).1.
Proof.
  revert m pre. induction n as [|n IH]; intros m pre; simpl.
  - by rewrite last_snoc.
  - destruct (papers_by_iter_depth (self m) !! iter_depth (self m))
      as [papers|] eqn:E.
    + destruct (get_refs_from_scopus (world m) papers (iter_depth (self m) + 1))
        as [w refs] eqn:Er.
      rewrite (iterate_trace_ok _ _ _ _ E Er).
      rewrite (iterate_ok _ _ _ _ E Er). cbv zeta.
      set (m0 := mkMachine w _ _). set (m1 := mkMachine _ _ _).
      cbn [fst].
      rewrite <- IH with (pre := pre ++ m :: m0 :: (fst <$> scan iterate_body (m0, ∅) refs)).
      f_equal. rewrite <- !(assoc_L (++)). simpl. by rewrite <- !(assoc_L (++)).
    + unfold iterate_trace. rewrite E, (iterate_KeyError _ E). simpl.
      by rewrite last_snoc.
Qed.

(** The last observable point is the state the build returns with. *)
Lemma build_trace_last ids use_doi k m :
  last (build_trace ids use_doi k m) = Some (build_from_ids ids use_doi k m).1.
Proof.
  unfold build_trace, build_from_ids. case_bool_decide; [done|].
  unfold initialise_trace.
  set (m0 := mkMachine _ _ _). set (sc := fst <$> _).
  rewrite <- (loop_trace_last _ _ (m :: m0 :: sc)).
  f_equal. simpl. by rewrite <- !(assoc_L (++)).
Qed.

(** *** Chains of steps: invariants and monotone quantities *)


Lemma chain_lookup (R : relation (machine PaperInfo World)) `{!PreOrder R} l i j x y :
  (∀ x y, step x y → R x y) →
  Sorted step l → l !! i = Some x → l !! j = Some y → (i ≤ j)%nat → R x y.
Proof.
  intros HR Hs. assert (Hss : StronglySorted R l).
  { apply Sorted_StronglySorted; [apply _|].
    induction Hs as [|a l Hs IH Hh]; constructor; [done|].
    destruct Hh; constructor. by apply HR. }
  clear Hs. revert i j. induction Hss as [|a l Hss IH Hall]; intros i j Hi Hj Hij.
  - done.
  - destruct i as [|i], j as [|j]; simpl in *; try lia.
    + by simplify_eq.
    + simplify_eq. rewrite Forall_forall in Hall. apply Hall.
      by eapply list_elem_of_lookup_2.
    + apply (IH i j); [done..|lia].
Qed.


#[local] Instance grows_preorder : PreOrder (@grows PaperInfo World _ _).
Proof.
  split.
  - intros m. unfold grows. split_and!; eauto; lia.
  - intros m1 m2 m3 (?&?&?&Hn&He&?&?) (?&?&?&Hn'&He'&?&?).
    unfold grows. split_and!; try lia; eauto.
    + intros e. destruct (He e) as [E|[E1 E2]], (He' e) as [E'|[E1' E2']];
        [left|right; split|right; split|]; congruence.
    + by etrans.
    + congruence.
Qed.

Lemma step_grows m m' : step m m' → grows m m'.
Proof.
  destruct 1 as [m b|m acc id_type i|m d acc Hd|m w ps d|m acc [pa c]].
  - unfold grows; simpl. split_and!; eauto; lia.
  - destruct (get_from_scopus (world m) i id_type (iter_depth (self m)))
      as [w a] eqn:E.
    rewrite (initialise_body_eq _ _ _ _ _ _ E).
    destruct a as [p|]; unfold grows; simpl; split_and!; eauto; try lia;
      try (by apply prefix_app_r).
    + intros n a. apply add_cit_graph_node_keeps.
    + intros e. left. by rewrite add_cit_graph_node_edges.
  - unfold grows; simpl. split_and!; eauto; lia.
  - unfold grows; simpl. split_and!; eauto; try lia. by apply prefix_app_r.
  - rewrite iterate_body_eq.
    destruct c as [c|]; unfold grows; simpl; split_and!; eauto; try lia;
      try (by apply prefix_app_r).
    + intros n a. apply add_cit_graph_edge_keeps.
    + intros e. rewrite add_cit_graph_edge_edges.
      destruct (decide (e = (scopus_id pa, scopus_id c))) as [->|Hne].
      * rewrite lookup_insert_eq. simpl.
        destruct (edges (base (self m)) !! _); simpl; eauto.
      * left. by rewrite lookup_insert_ne.
Qed.

(** Between an observable point of a build and any later one. *)
Lemma build_trace_grows ids use_udoi k m0 i j m m' :
  build_trace ids use_udoi k m0 !! i = Some m →
  build_trace ids use_udoi k m0 !! j = Some m' →
  (i ≤ j)%nat → grows m m'.
Proof.
  intros. eapply (chain_lookup grows); eauto using step_grows, build_trace_chain.
Qed.

Lemma build_from_ids_grows ids use_doi k m :
  grows m (build_from_ids ids use_doi k m).1.
Proof.
  pose proof (build_trace_last ids use_doi k m) as Hl.
  rewrite last_lookup in Hl.
  eapply (build_trace_grows ids use_doi k m 0); [done|exact Hl|lia].
Qed.

(** *** Counters *)


Lemma resolved_app_answers (l1 l2 : list (option PaperInfo)) :
  omap id (l1 ++ l2) = omap id l1 ++ omap id l2.
Proof. apply omap_app. Qed.





(** *** A build with a non-negative depth raises nothing *)

Lemma initialise_frontier ids use_doi m :
  let m' := __initialise ids use_doi m in
  iter_depth (self m') = iter_depth (self m)
  ∧ ∃ ps, papers_by_iter_depth (self m')
          = <[iter_depth (self m) := ps]> (papers_by_iter_depth (self m)).
Proof.
  rewrite initialise_eq. cbv zeta.
  set (m0 := mkMachine (world m) (history m) _). set (st := foldl _ _ _).
  pose proof (foldl_initialise_body_frame (if use_doi then "doi" else "eid")
                ids (m0, ∅)) as (Hd & Hp & _).
  fold st in Hd, Hp. simpl in *. rewrite Hd, Hp. eauto.
Qed.

Lemma iterate_frontier m :
  is_Some (papers_by_iter_depth (self m) !! iter_depth (self m)) →
  ∃ m', __iterate m = (m', inr ())
        ∧ iter_depth (self m') = iter_depth (self m) + 1
        ∧ ∃ ps, papers_by_iter_depth (self m')
                = <[iter_depth (self m) + 1 := ps]> (papers_by_iter_depth (self m)).
Proof.
  intros [papers E].
  destruct (get_refs_from_scopus (world m) papers (iter_depth (self m) + 1))
    as [w refs] eqn:Er.
  rewrite (iterate_ok _ _ _ _ E Er). cbv zeta.
  set (m0 := mkMachine w _ (self m)). set (st := foldl _ _ _).
  pose proof (foldl_iterate_body_frame refs (m0, ∅)) as (_ & _ & Hp & _).
  fold st in Hp. simpl in Hp.
  eexists. split; [done|]. simpl. rewrite Hp. eauto.
Qed.

Lemma iterate_loop_frontier n m :
  is_Some (papers_by_iter_depth (self m) !! iter_depth (self m)) →
  ∃ m', iterate_loop n m = (m', inr ())
        ∧ iter_depth (self m') = iter_depth (self m) + Z.of_nat n
        ∧ ∀ d, is_Some (papers_by_iter_depth (self m') !! d)
               ↔ is_Some (papers_by_iter_depth (self m) !! d)
                 ∨ iter_depth (self m) < d ≤ iter_depth (self m) + Z.of_nat n.
Proof.
  revert m. induction n as [|n IH]; intros m Hm.
  - exists m. simpl. split_and!; [done|lia|]. intros d. split; [eauto|].
    intros [?|?]; [done|lia].
  - destruct (iterate_frontier m Hm) as (m1 & E1 & Hd1 & ps & Hp1).
    destruct (IH m1) as (m' & E' & Hd' & Hk').
    { rewrite Hd1, Hp1, lookup_insert_eq. eauto. }
    exists m'. cbn [iterate_loop]. rewrite E1. split_and!; [done|lia|].
    intros d. rewrite Hk', Hp1, Hd1.
    destruct (decide (d = iter_depth (self m) + 1)) as [->|Hne].
    + rewrite lookup_insert_eq. split; [intros _; right; lia|eauto].
    + rewrite lookup_insert_ne by done. split; intros [?|?]; eauto; right; lia.
Qed.

Lemma build_from_ids_frontier ids use_doi k m :
  0 ≤ k →
  ∃ m', build_from_ids ids use_doi k m = (m', inr ())
        ∧ iter_depth (self m') = iter_depth (self m) + k
        ∧ ∀ d, is_Some (papers_by_iter_depth (self m') !! d)
               ↔ is_Some (papers_by_iter_depth (self m) !! d)
                 ∨ iter_depth (self m) ≤ d ≤ iter_depth (self m) + k.
Proof.
  intros Hk. unfold build_from_ids. rewrite bool_decide_eq_false_2 by lia.
  destruct (initialise_frontier ids use_doi m) as (Hd & ps & Hp).
  destruct (iterate_loop_frontier (Z.to_nat k) (__initialise ids use_doi m))
    as (m' & E & Hd' & Hk').
  { rewrite Hd, Hp, lookup_insert_eq. eauto. }
  exists m'. split_and!; [done|lia|].
  intros d. rewrite Hk', Hp, Hd.
  destruct (decide (d = iter_depth (self m))) as [->|Hne].
  - rewrite lookup_insert_eq. split; [intros _; right; lia|eauto].
  - rewrite lookup_insert_ne by done. split; intros [?|?]; eauto; right; lia.
Qed.

(** *** Frontiers *)

Lemma foldl_initialise_body_grows id_type ids
    (st : machine PaperInfo World * gset PaperInfo) :
  grows st.1 (foldl (initialise_body id_type) st ids).1.
Proof.
  revert st. induction ids as [|i ids IH]; intros [m acc]; [done|].
  cbn [foldl]. etrans; [|apply IH]. apply step_grows, step_seed.
Qed.

Lemma foldl_iterate_body_grows refs
    (st : machine PaperInfo World * gset PaperInfo) :
  grows st.1 (foldl iterate_body st refs).1.
Proof.
  revert st. induction refs as [|r refs IH]; intros [m acc]; [done|].
  cbn [foldl]. etrans; [|apply IH]. apply step_grows, step_pair.
Qed.

(** Every paper collected by the loop of [__initialise] is a node. *)
Lemma foldl_initialise_body_acc id_type ids
    (st : machine PaperInfo World * gset PaperInfo) :
  (∀ p, p ∈ st.2 → is_Some (nodes (base (self st.1)) !! scopus_id p)) →
  let st' := foldl (initialise_body id_type) st ids in
  ∀ p, p ∈ st'.2 → is_Some (nodes (base (self st'.1)) !! scopus_id p).
Proof.
  revert st. induction ids as [|i ids IH]; intros [m acc] Hacc; [done|].
  cbn [foldl]. apply IH. clear IH.
  destruct (get_from_scopus (world m) i id_type (iter_depth (self m)))
    as [w a] eqn:E.
  rewrite (initialise_body_eq _ _ _ _ _ _ E).
  destruct a as [q|]; simpl in *; [|done].
  intros p Hp.
  assert (p ∈ acc ∨ p = q) as [Hin| ->] by (case_bool_decide; set_solver).
  - destruct (Hacc p Hin) as [a Ea]. exists a.
    by apply add_cit_graph_node_keeps.
  - apply elem_of_dom. rewrite add_cit_graph_node_dom. set_solver.
Qed.

(** Every paper collected by the loop of [__iterate] is a node by now and
    was not a node of [N0], the node table when the pass started. *)
Lemma foldl_iterate_body_acc refs (N0 : gmap Z (gmap string value))
    (st : machine PaperInfo World * gset PaperInfo) :
  (∀ n a, N0 !! n = Some a → nodes (base (self st.1)) !! n = Some a) →
  (∀ p, p ∈ st.2 → is_Some (nodes (base (self st.1)) !! scopus_id p)
                   ∧ N0 !! scopus_id p = None) →
  let st' := foldl iterate_body st refs in
  ∀ p, p ∈ st'.2 → is_Some (nodes (base (self st'.1)) !! scopus_id p)
                   ∧ N0 !! scopus_id p = None.
Proof.
  revert st. induction refs as [|[pa c] refs IH]; intros [m acc] HN Hacc; [done|].
  cbn [foldl]. apply IH; clear IH; rewrite iterate_body_eq;
    destruct c as [c|]; simpl in *; try done.
  - intros n a E. by apply add_cit_graph_edge_keeps, HN.
  - intros p Hp.
    destruct (bool_decide (c ∉ acc) && negb (has_node (base (self m)) (scopus_id c)))
      eqn:Hgate.
    + apply elem_of_union in Hp as [Hin|Hc%elem_of_singleton].
      * destruct (Hacc p Hin) as [[a Ea] HN0]. split; [|done].
        exists a. by apply add_cit_graph_edge_keeps.
      * subst p. apply andb_true_iff in Hgate as [_ Hnode].
        apply negb_true_iff, has_node_false in Hnode. split.
        -- apply elem_of_dom. rewrite add_cit_graph_edge_nodes_dom. set_solver.
        -- destruct (N0 !! scopus_id c) as [a|] eqn:E0; [|done].
           apply HN in E0. congruence.
    + destruct (Hacc p Hp) as [[a Ea] HN0]. split; [|done].
      exists a. by apply add_cit_graph_edge_keeps.
Qed.


Lemma initialise_frontier_inv ids use_doi m :
  papers_by_iter_depth (self m) = ∅ →
  frontier_inv (self (__initialise ids use_doi m)).
Proof.
  intros Hempty. rewrite initialise_eq. cbv zeta.
  set (m0 := mkMachine (world m) (history m) _). set (st := foldl _ _ _).
  pose proof (foldl_initialise_body_frame (if use_doi then "doi" else "eid")
                ids (m0, ∅)) as (Hd & Hp & _).
  pose proof (foldl_initialise_body_acc (if use_doi then "doi" else "eid")
                ids (m0, ∅)) as Hacc.
  fold st in Hd, Hp, Hacc. simpl in Hd, Hp, Hacc.
  unfold frontier_inv, frontier_nodes, keys_bounded, frontiers_disjoint.
  simpl. rewrite Hp, Hempty. split_and!.
  - intros d ps p [[<- <-]|[_ E]]%lookup_insert_Some Hin;
      [|by rewrite lookup_empty in E].
    by apply Hacc.
  - intros d [ps [[<- _]|[_ E]]%lookup_insert_Some]; [lia|].
    by rewrite lookup_empty in E.
  - intros d1 d2 ps1 ps2 p1 p2 Hne
      [[<- _]|[_ E1]]%lookup_insert_Some [[<- _]|[_ E2]]%lookup_insert_Some;
      rewrite ?lookup_empty in *; done.
Qed.

(** One pass: the new frontier holds no paper that was a node when the
    pass started, and the invariant is kept. *)
Lemma iterate_frontier_inv m m' :
  frontier_inv (self m) →
  __iterate m = (m', inr ()) →
  frontier_inv (self m')
  ∧ ∀ ps p, papers_by_iter_depth (self m') !! (iter_depth (self m) + 1) = Some ps →
            p ∈ ps → nodes (base (self m)) !! scopus_id p = None.
Proof.
  intros (Hnodes & Hkeys & Hdisj) Hit.
  destruct (papers_by_iter_depth (self m) !! iter_depth (self m))
    as [papers|] eqn:E; [|by rewrite (iterate_KeyError _ E) in Hit].
  destruct (get_refs_from_scopus (world m) papers (iter_depth (self m) + 1))
    as [w refs] eqn:Er.
  rewrite (iterate_ok _ _ _ _ E Er) in Hit. cbv zeta in Hit.
  set (m0 := mkMachine w _ (self m)) in Hit. set (st := foldl _ _ _) in Hit.
  pose proof (foldl_iterate_body_frame refs (m0, ∅)) as (_ & _ & Hp & _).
  pose proof (foldl_iterate_body_grows refs (m0, ∅)) as (_ & _ & _ & Hkeep & _).
  pose proof (foldl_iterate_body_acc refs (nodes (base (self m))) (m0, ∅)) as Hacc.
  fold st in Hp, Hkeep, Hacc. simpl in Hp, Hkeep, Hacc.
  specialize (Hacc (λ _ _ E, E)). specialize (Hacc ltac:(set_solver)).
  injection Hit as <-.
  unfold frontier_inv, frontier_nodes, keys_bounded, frontiers_disjoint.
  simpl. rewrite Hp.
  assert (Hfresh : papers_by_iter_depth (self m) !! (iter_depth (self m) + 1) = None).
  { apply eq_None_not_Some. intros Hs%Hkeys. lia. }
  split; [split_and!|].
  - intros d ps p [[<- <-]|[_ Ed]]%lookup_insert_Some Hin.
    + by apply Hacc.
    + destruct (Hnodes d ps p Ed Hin) as [a Ea]. exists a. by apply Hkeep.
  - intros d [ps [[<- _]|[_ Ed]]%lookup_insert_Some]; simpl; [lia|].
    assert (d ≤ iter_depth (self m)) by eauto. lia.
  - intros d1 d2 ps1 ps2 p1 p2 Hne
      [[<- <-]|[_ E1]]%lookup_insert_Some [[<- <-]|[_ E2]]%lookup_insert_Some
      H1 H2; try done.
    + destruct (Hacc p1 H1) as [_ HN1].
      destruct (Hnodes d2 ps2 p2 E2 H2) as [a Ea]. congruence.
    + destruct (Hacc p2 H2) as [_ HN2].
      destruct (Hnodes d1 ps1 p1 E1 H1) as [a Ea]. congruence.
    + by eapply Hdisj.
  - intros ps p. rewrite lookup_insert_eq. intros [= <-] Hin. by apply Hacc.
Qed.

Lemma iterate_loop_frontier_inv n m m' :
  frontier_inv (self m) →
  iterate_loop n m = (m', inr ()) →
  frontier_inv (self m').
Proof.
  revert m. induction n as [|n IH]; intros m Hinv Hl; simpl in Hl.
  - by injection Hl as <-.
  - destruct (__iterate m) as [m1 [e|[]]] eqn:E1; [done|].
    apply (IH m1); [|done]. by eapply iterate_frontier_inv.
Qed.

(** *** The initialisation pass against the collaborator's answers *)

Lemma insert_if_absent (p : PaperInfo) acc :
  (if bool_decide (p ∉ acc) then acc ∪ {[p]} else acc) = acc ∪ {[p]}.
Proof.
  case_bool_decide as Hp; [done|]. set_solver.
Qed.

Lemma foldl_initialise_body_spec id_type ids m acc w l :
  resolve_seeds (world m) ids id_type (iter_depth (self m)) = (w, l) →
  let st := foldl (initialise_body id_type) (m, acc) ids in
  world st.1 = w
  ∧ history st.1
    = history m ++ zip_with (λ i a, EvGet i id_type (iter_depth (self m)) a) ids l
  ∧ st.2 = acc ∪ list_to_set (omap id l)
  ∧ base (self st.1) = add_cit_graph_nodes (base (self m)) (node_calls (omap id l))
  ∧ retrievals_total (self st.1)
    = retrievals_total (self m) + Z.of_nat (length ids)
  ∧ retrievals_failed (self st.1)
    = retrievals_failed (self m) + Z.of_nat (length (filter (λ a, a = None) l))
  ∧ length l = length ids.
Proof.
  revert m acc w l. induction ids as [|i ids IH]; intros m acc w l Hr; simpl in Hr.
  - injection Hr as <- <-. simpl. split_and!; try done; try lia.
    + by rewrite (right_id_L [] (++)).
    + set_solver.
  - destruct (get_from_scopus (world m) i id_type (iter_depth (self m)))
      as [w1 a] eqn:E.
    destruct (resolve_seeds w1 ids id_type (iter_depth (self m)))
      as [w2 l2] eqn:E2.
    injection Hr as <- <-. cbn [foldl].
    rewrite (initialise_body_eq _ _ _ _ _ _ E). cbv zeta.
    destruct a as [p|].
    + rewrite insert_if_absent.
      match goal with |- context [foldl _ (?m1, ?acc1) ids] =>
        destruct (IH m1 acc1 w2 l2 E2) as (Hw & Hh & Hacc & Hb & Ht & Hf & Hl) end.
      rewrite filter_cons_False by done.
      rewrite Hw, Hh, Hacc, Hb, Ht, Hf. simpl.
      split_and!; try done; try lia.
      * by rewrite <- (assoc_L (++)).
      * cbn [omap list_omap id list_to_set].
        fold (omap (M := list) (@id (option PaperInfo)) l2). set_solver.
    + match goal with |- context [foldl _ (?m1, ?acc1) ids] =>
        destruct (IH m1 acc1 w2 l2 E2) as (Hw & Hh & Hacc & Hb & Ht & Hf & Hl) end.
      rewrite filter_cons_True by done.
      rewrite Hw, Hh, Hacc, Hb, Ht, Hf. simpl.
      split_and!; try done; try lia.
      by rewrite <- (assoc_L (++)).
Qed.

Lemma add_cit_graph_nodes_edges calls (g : DiGraph) :
  edges (add_cit_graph_nodes g calls) = edges g.
Proof.
  revert g. induction calls as [|c calls IH]; intros g; [done|].
  unfold add_cit_graph_nodes in *. simpl.
  by rewrite IH, add_cit_graph_node_edges.
Qed.

Lemma node_calls_ids (ps : list PaperInfo) :
  (node_calls ps).*1 = scopus_id <$> ps.
Proof. unfold node_calls. rewrite <- list_fmap_compose. done. Qed.

Lemma build_from_ids_frontier_inv ids use_doi k m :
  papers_by_iter_depth (self m) = ∅ →
  frontier_inv (self (build_from_ids ids use_doi k m).1).
Proof.
  intros Hempty. destruct (decide (k < 0)) as [Hk|Hk].
  - unfold build_from_ids. rewrite bool_decide_eq_true_2 by done. simpl.
    unfold frontier_inv, frontier_nodes, keys_bounded, frontiers_disjoint.
    rewrite Hempty. split_and!; intros *; rewrite ?lookup_empty;
      try done. all: by intros [? ?].
  - destruct (build_from_ids_frontier ids use_doi k m) as (m' & E & _); [lia|].
    rewrite E. simpl. unfold build_from_ids in E.
    rewrite bool_decide_eq_false_2 in E by done.
    eapply iterate_loop_frontier_inv; [|exact E].
    by apply initialise_frontier_inv.
Qed.

(** The gate of a pass does not depend on any invariant: whatever the
    state, a paper of the frontier written by [__iterate] was no node
    when the pass started. *)
Lemma iterate_gate m m' ps p :
  __iterate m = (m', inr ()) →
  papers_by_iter_depth (self m') !! (iter_depth (self m) + 1) = Some ps →
  p ∈ ps → nodes (base (self m)) !! scopus_id p = None.
Proof.
  intros Hit.
  destruct (papers_by_iter_depth (self m) !! iter_depth (self m))
    as [papers|] eqn:E; [|by rewrite (iterate_KeyError _ E) in Hit].
  destruct (get_refs_from_scopus (world m) papers (iter_depth (self m) + 1))
    as [w refs] eqn:Er.
  rewrite (iterate_ok _ _ _ _ E Er) in Hit. cbv zeta in Hit.
  set (m0 := mkMachine w _ (self m)) in Hit. set (st := foldl _ _ _) in Hit.
  pose proof (foldl_iterate_body_acc refs (nodes (base (self m))) (m0, ∅)) as Hacc.
  fold st in Hacc. simpl in Hacc.
  specialize (Hacc (λ _ _ E, E)). specialize (Hacc ltac:(set_solver)).
  injection Hit as <-. simpl. rewrite lookup_insert_eq.
  intros [= <-] Hin. by apply Hacc.
Qed.

(** C1. Frontier disjointness: in the state a build leaves behind, when
    it started on a graph with no recorded frontier (as a newly
    constructed one), papers recorded at two different depths never have
    the same [scopus_id]; and the frontier that an expansion pass records
    holds no paper whose [scopus_id] was a node when the pass began. *)
Theorem C1_frontier_disjointness ids use_doi k m :
  papers_by_iter_depth (self m) = ∅ →
  let m' := (build_from_ids ids use_doi k m).1 in
  (∀ d1 d2 ps1 ps2 p1 p2,
     d1 ≠ d2 →
     papers_by_iter_depth (self m') !! d1 = Some ps1 →
     papers_by_iter_depth (self m') !! d2 = Some ps2 →
     p1 ∈ ps1 → p2 ∈ ps2 → scopus_id p1 ≠ scopus_id p2)
  ∧ (∀ m1 m2 ps p,
       __iterate m1 = (m2, inr ()) →
       papers_by_iter_depth (self m2) !! (iter_depth (self m1) + 1) = Some ps →
       p ∈ ps → nodes (base (self m1)) !! scopus_id p = None).
Proof.
  intros Hempty m'. split.
  - by destruct (build_from_ids_frontier_inv ids use_doi k m) as (_ & _ & Hd).
  - intros m1 m2 ps p. apply iterate_gate.
Qed.

Lemma iterate_depth m m' r :
  __iterate m = (m', r) →
  iter_depth (self m')
  = iter_depth (self m) + match r with inr _ => 1 | inl _ => 0 end.
Proof.
  destruct (papers_by_iter_depth (self m) !! iter_depth (self m))
    as [papers|] eqn:E.
  - destruct (iterate_frontier m) as (m1 & -> & Hd & _); [by eauto|].
    intros [= <- <-]. done.
  - rewrite (iterate_KeyError _ E). intros [= <- <-]. lia.
Qed.

(** C2. Depth contiguity and terminal depth: a build with depth [k >= 0]
    on a newly constructed graph returns normally, with [iter_depth] equal
    to [k] and with [papers_by_iter_depth] defined exactly on
    [0, 1, ..., k]; a pass that returns normally adds exactly 1 to
    [iter_depth] (one that raises leaves it alone); and from one
    observable point of the build to any later one [iter_depth] does not
    decrease. *)
Theorem C2_depth_contiguity ids use_doi k w name :
  0 ≤ k →
  (∃ m', build_from_ids ids use_doi k (start w name) = (m', inr ())
         ∧ iter_depth (self m') = k
         ∧ (∀ d, is_Some (papers_by_iter_depth (self m') !! d) ↔ 0 ≤ d ≤ k)
         ∧ dom (papers_by_iter_depth (self m'))
           = list_to_set (seqZ 0 (k + 1)))
  ∧ (∀ m1 m2 r,
       __iterate m1 = (m2, r) →
       iter_depth (self m2)
       = iter_depth (self m1) + match r with inr _ => 1 | inl _ => 0 end)
  ∧ (∀ i j s t,
       build_trace ids use_doi k (start w name) !! i = Some s →
       build_trace ids use_doi k (start w name) !! j = Some t →
       (i ≤ j)%nat → iter_depth (self s) ≤ iter_depth (self t)).
Proof.
  intros Hk. split_and!.
  - destruct (build_from_ids_frontier ids use_doi k (start w name) Hk)
      as (m' & E & Hd & Hkeys).
    simpl in Hd, Hkeys. exists m'.
    assert (Hex : ∀ d, is_Some (papers_by_iter_depth (self m') !! d) ↔ 0 ≤ d ≤ k).
    { intros d. rewrite Hkeys, lookup_empty. split; [|by right].
      intros [[? [=]]|?]. lia. }
    split_and!; [done|lia|done|].
    apply set_eq. intros d.
    rewrite elem_of_dom, Hex, elem_of_list_to_set, elem_of_seqZ. lia.
  - intros m1 m2 r. apply iterate_depth.
  - intros i j s t Hi Hj Hij.
    by destruct (build_trace_grows _ _ _ _ _ _ _ _ Hi Hj Hij) as (_ & _ & ? & _).
Qed.

(** A whole pass: every pair with a child leaves its edge in the graph,
    and the counters move by the number of pairs and of absent children. *)
Lemma foldl_iterate_body_edges refs
    (st : machine PaperInfo World * gset PaperInfo) pa c :
  (pa, Some c) ∈ refs →
  is_Some (edges (base (self (foldl iterate_body st refs).1))
             !! (scopus_id pa, scopus_id c)).
Proof.
  revert st. induction refs as [|r refs IH]; intros [m acc] Hin.
  - by apply elem_of_nil in Hin.
  - cbn [foldl]. apply elem_of_cons in Hin as [<-|Hin]; [|by apply IH].
    assert (E1 : is_Some (edges (base (self (iterate_body (m, acc) (pa, Some c)).1))
                            !! (scopus_id pa, scopus_id c))).
    { rewrite iterate_body_eq. simpl. rewrite add_cit_graph_edge_lookup. eauto. }
    destruct (foldl_iterate_body_grows refs (iterate_body (m, acc) (pa, Some c)))
      as (_ & _ & _ & _ & He & _).
    destruct (He (scopus_id pa, scopus_id c)) as [E| [E _]].
    + by rewrite E.
    + rewrite E in E1. by destruct E1.
Qed.

Lemma foldl_iterate_body_counters refs
    (st : machine PaperInfo World * gset PaperInfo) :
  let st' := foldl iterate_body st refs in
  retrievals_total (self st'.1)
  = retrievals_total (self st.1) + Z.of_nat (length refs)
  ∧ retrievals_failed (self st'.1)
    = retrievals_failed (self st.1)
      + Z.of_nat (length (filter (λ r, r.2 = None) refs)).
Proof.
  revert st. induction refs as [|[pa c] refs IH]; intros [m acc].
  - simpl. lia.
  - cbn [foldl]. destruct (IH (iterate_body (m, acc) (pa, c))) as [Ht Hf].
    cbv zeta. rewrite Ht, Hf, iterate_body_eq. destruct c as [c|].
    + rewrite filter_cons_False by (simpl; congruence). simpl. lia.
    + rewrite filter_cons_True by done. simpl. lia.
Qed.

(** C3. Per-pair processing in an expansion pass.  A pair whose child is
    absent adds 1 to both counters and changes neither the graph nor the
    set collected for the next frontier.  A pair whose child is present
    adds 1 to [retrievals_total] only, leaves the graph with the edge
    parent -> child, whether or not the child was a node, and the child
    joins the collected set exactly when it is not yet in it and its
    [scopus_id] is not yet a node.  In particular, when the only seed
    resolves to [p] and the only reference of [p] is [p] itself, a build of
    depth 1 ends with the single node and the single edge
    [scopus_id p -> scopus_id p] and with an empty frontier at depth 1.
    Over a whole pass, every received pair with a child has its edge in the
    graph the pass leaves, [retrievals_total] has grown by the number of
    pairs and [retrievals_failed] by the number of absent children. *)
Theorem C3_per_pair_processing :
  (∀ m acc parent,
     let st := iterate_body (m, acc) (parent, None) in
     base (self st.1) = base (self m)
     ∧ st.2 = acc
     ∧ retrievals_failed (self st.1) = retrievals_failed (self m) + 1
     ∧ retrievals_total (self st.1) = retrievals_total (self m) + 1)
  ∧ (∀ m acc parent child,
       let st := iterate_body (m, acc) (parent, Some child) in
       base (self st.1)
       = add_cit_graph_edge (base (self m))
           (scopus_id parent) (graph_properties_as_dict parent)
           (scopus_id child) (graph_properties_as_dict child) None
       ∧ has_edge (base (self st.1)) (scopus_id parent) (scopus_id child) = true
       ∧ st.2 = (if bool_decide ((child ∉ acc) ∧
                                 nodes (base (self m)) !! scopus_id child = None)
                 then acc ∪ {[child]} else acc)
       ∧ retrievals_failed (self st.1) = retrievals_failed (self m)
       ∧ retrievals_total (self st.1) = retrievals_total (self m) + 1)
  ∧ (∀ m papers w refs,
       papers_by_iter_depth (self m) !! iter_depth (self m) = Some papers →
       get_refs_from_scopus (world m) papers (iter_depth (self m) + 1)
       = (w, refs) →
       let m' := (__iterate m).1 in
       (∀ parent child,
          (parent, Some child) ∈ refs →
          has_edge (base (self m')) (scopus_id parent) (scopus_id child) = true)
       ∧ retrievals_total (self m')
         = retrievals_total (self m) + Z.of_nat (length refs)
       ∧ retrievals_failed (self m')
         = retrievals_failed (self m)
           + Z.of_nat (length (filter (λ r, r.2 = None) refs)))
  ∧ (∀ w name (use_doi : bool) identifier p w1 w2,
       get_from_scopus w identifier (if use_doi then "doi" else "eid") 0
       = (w1, Some p) →
       get_refs_from_scopus w1 {[p]} 1 = (w2, [(p, Some p)]) →
       ∃ m', build_from_ids [identifier] use_doi 1 (start w name) = (m', inr ())
             ∧ nodes (base (self m'))
               = {[scopus_id p := graph_properties_as_dict p]}
             ∧ edges (base (self m')) = {[(scopus_id p, scopus_id p) := ∅]}
             ∧ papers_by_iter_depth (self m') !! 0 = Some {[p]}
             ∧ papers_by_iter_depth (self m') !! 1 = Some ∅).
Proof.
  split_and!.
  - intros m acc parent. by rewrite iterate_body_eq.
  - intros m acc parent child. rewrite iterate_body_eq. simpl.
    split_and!; try done.
    + apply has_edge_true. rewrite add_cit_graph_edge_lookup. eauto.
    + destruct (has_node (base (self m)) (scopus_id child)) eqn:E.
      * apply has_node_true in E as [a Ea].
        rewrite andb_false_r, bool_decide_eq_false_2; [done|].
        intros [_ ?]. congruence.
      * apply has_node_false in E. rewrite andb_true_r.
        rewrite (bool_decide_ext (child ∉ acc)
                   ((child ∉ acc) ∧
                    nodes (base (self m)) !! scopus_id child = None));
          [done|naive_solver].
  - intros m papers w refs E Er. rewrite (iterate_ok _ _ _ _ E Er).
    cbv zeta. cbn [fst].
    set (m0 := mkMachine w _ (self m)).
    pose proof (foldl_iterate_body_counters refs (m0, ∅)) as [Ht Hf].
    simpl in *. split_and!; [|done..].
    intros parent child Hin. apply has_edge_true.
    by apply (foldl_iterate_body_edges refs (m0, ∅)).
  - intros w name use_doi identifier p w1 w2 Eget Erefs.
    unfold build_from_ids. rewrite bool_decide_eq_false_2 by lia.
    change (Z.to_nat 1) with 1%nat. cbn [iterate_loop].
    rewrite initialise_eq. cbv zeta. cbn [foldl].
    erewrite initialise_body_eq; [|exact Eget].
    cbv zeta. cbn [fst snd]. rewrite insert_if_absent, (left_id_L ∅ (∪)).
    unfold with_frontier, with_base, incr_total, with_use_doi, CitationGraph_init.
    simpl.
    set (b1 := add_cit_graph_node DiGraph_empty _ _).
    assert (Hb1 : b1 = mkDiGraph {[scopus_id p := graph_properties_as_dict p]} ∅).
    { subst b1. unfold add_cit_graph_node, add_node, has_node. simpl.
      rewrite lookup_empty. rewrite bool_decide_eq_false_2 by (by intros [? ?]).
      simpl. by rewrite insert_empty. }
    assert (Hn : has_node b1 (scopus_id p) = true).
    { apply has_node_true. rewrite Hb1. simpl. rewrite lookup_singleton_eq. eauto. }
    erewrite iterate_ok; cycle 1.
    { simpl. by rewrite lookup_insert_eq. }
    { simpl. exact Erefs. }
    cbv zeta. cbn [foldl]. rewrite iterate_body_eq.
    unfold with_frontier, with_base, incr_total. simpl.
    eexists. split; [done|]. simpl. rewrite Hn, andb_false_r.
    split_and!.
    + rewrite add_cit_graph_edge_nodes.
      apply has_node_true in Hn.
      rewrite (add_cit_graph_node_present b1) by done.
      rewrite (add_cit_graph_node_present b1) by done.
      by rewrite Hb1.
    + rewrite add_cit_graph_edge_edges, Hb1. simpl.
      rewrite lookup_empty. simpl. apply insert_empty.
    + rewrite lookup_insert_ne by done. by rewrite lookup_insert_eq.
    + by rewrite lookup_insert_eq.
Qed.



(** C7. Initialisation postcondition.  On a newly constructed graph, with
    [l] the collaborator's answers to the seed identifiers: the frontier
    recorded at depth 0 is the set of the papers among [l]; [iter_depth]
    is still 0 and [use_doi] holds the flag; the graph is the empty graph
    after one node insertion per resolved seed, so it has the resolved
    seeds as nodes and no edge; [retrievals_total] is the number of seeds
    and [retrievals_failed] the number of failed lookups.  A turn of the
    loop whose lookup fails adds 1 to both counters and leaves the graph
    and the collected set alone.  A build of depth 0 does nothing but this
    pass. *)
Theorem C7_initialisation_postcondition ids (doi : bool) w0 name w l :
  resolve_seeds w0 ids (if doi then "doi" else "eid") 0 = (w, l) →
  let m' := __initialise ids doi (start w0 name) in
  (papers_by_iter_depth (self m') = {[0 := list_to_set (omap id l)]}
   ∧ iter_depth (self m') = 0
   ∧ use_doi (self m') = Some doi
   ∧ base (self m') = add_cit_graph_nodes DiGraph_empty (node_calls (omap id l))
   ∧ dom (nodes (base (self m'))) = list_to_set (scopus_id <$> omap id l)
   ∧ edges (base (self m')) = ∅
   ∧ retrievals_total (self m') = Z.of_nat (length ids)
   ∧ retrievals_failed (self m') = Z.of_nat (length (filter (λ a, a = None) l))
   ∧ world m' = w)
  ∧ (∀ m acc id_type identifier w1,
       get_from_scopus (world m) identifier id_type (iter_depth (self m))
       = (w1, None) →
       let st := initialise_body id_type (m, acc) identifier in
       base (self st.1) = base (self m)
       ∧ st.2 = acc
       ∧ retrievals_failed (self st.1) = retrievals_failed (self m) + 1
       ∧ retrievals_total (self st.1) = retrievals_total (self m) + 1)
  ∧ build_from_ids ids doi 0 (start w0 name) = (m', inr ()).
Proof.
  intros Hr m'. split; [|split].
  - subst m'. rewrite initialise_eq. cbv zeta.
    set (m0 := mkMachine (world (start w0 name)) _ _).
    pose proof (foldl_initialise_body_frame (if doi then "doi" else "eid")
                  ids (m0, ∅)) as (Hd & Hp & Hu & _).
    destruct (foldl_initialise_body_spec (if doi then "doi" else "eid")
                ids m0 ∅ w l Hr) as (Hw & _ & Hacc & Hb & Ht & Hf & _).
    set (st := foldl _ _ _) in *. simpl in *.
    rewrite Hd, Hp, Hu, Hacc, Hb, Ht, Hf, Hw, (left_id_L ∅ (∪)).
    rewrite add_cit_graph_nodes_dom, add_cit_graph_nodes_edges, node_calls_ids.
    simpl. rewrite dom_empty_L, (left_id_L ∅ (∪)), insert_empty.
    split_and!; done || lia.
  - intros m acc id_type identifier w1 E.
    by rewrite (initialise_body_eq _ _ _ _ _ _ E).
  - unfold build_from_ids. by rewrite bool_decide_eq_false_2 by lia.
Qed.

(** C8. Input validation: with a negative target depth [build_from_ids]
    raises the [ValueError] at once, with the graph, the outside world and
    the record of collaborator calls exactly as they were, and no
    observable point other than the entry; with a non-negative target
    depth it returns normally. *)
Theorem C8_input_validation ids (doi : bool) k m :
  (k < 0 →
     build_from_ids ids doi k m
     = (m, inl (ValueError "Target depth must be non-negative!"))
     ∧ build_trace ids doi k m = [m])
  ∧ (0 ≤ k → ∃ m', build_from_ids ids doi k m = (m', inr ())).
Proof.
  split.
  - intros Hk. unfold build_from_ids, build_trace.
    by rewrite bool_decide_eq_true_2 by done.
  - intros Hk.
    destruct (build_from_ids_frontier ids doi k m Hk) as (m' & E & _). eauto.
Qed.

(** C10. A build never assigns edge weights.  An edge of the graph after
    a build carries under ["weight"] what it carried before the build, and
    nothing if the build created it; so no edge has a weight after a build
    on a graph without weights, and after a build on a newly constructed
    graph every edge has an empty attribute dictionary.  The expansion
    pass calls the edge upsert without a weight; a direct call with a
    weight does store it. *)
Theorem C10_build_assigns_no_weight ids (doi : bool) k m :
  let m' := (build_from_ids ids doi k m).1 in
  (∀ e d, edges (base (self m')) !! e = Some d →
          d !! "weight" = edges (base (self m)) !! e ≫= (.!! "weight"))
  ∧ ((∀ e d, edges (base (self m)) !! e = Some d → d !! "weight" = None) →
     ∀ e d, edges (base (self m')) !! e = Some d → d !! "weight" = None)
  ∧ (∀ w name e d,
       edges (base (self (build_from_ids ids doi k (start w name)).1)) !! e
       = Some d → d = ∅)
  ∧ (∀ m1 acc parent child,
       base (self (iterate_body (m1, acc) (parent, Some child)).1)
       = add_cit_graph_edge (base (self m1))
           (scopus_id parent) (graph_properties_as_dict parent)
           (scopus_id child) (graph_properties_as_dict child) None)
  ∧ (∀ (b : DiGraph) u pp v cp x,
       ∃ d, edges (add_cit_graph_edge b u pp v cp (Some x)) !! (u, v) = Some d
            ∧ d !! "weight" = Some (VInt x)).
Proof.
  intros m'.
  assert (Hweight : ∀ m0 e d,
    edges (base (self (build_from_ids ids doi k m0).1)) !! e = Some d →
    edges (base (self m0)) !! e = Some d
    ∨ (edges (base (self m0)) !! e = None ∧ d = ∅)).
  { intros m0 e d Ed.
    destruct (build_from_ids_grows ids doi k m0) as (_ & _ & _ & _ & He & _).
    destruct (He e) as [E|[E1 E2]]; [left|right]; [congruence|].
    split; congruence. }
  split_and!.
  - intros e d Ed. destruct (Hweight m e d Ed) as [->|[-> ->]]; done.
  - intros Hnone e d Ed. destruct (Hweight m e d Ed) as [E|[_ ->]]; [eauto|done].
  - intros w name e d Ed. destruct (Hweight _ e d Ed) as [E|[_ ->]]; [|done].
    simpl in E. by rewrite lookup_empty in E.
  - intros m1 acc parent child. by rewrite iterate_body_eq.
  - intros b u pp v cp x. eexists. split; [apply add_cit_graph_edge_lookup|].
    simpl. by rewrite lookup_insert_eq.
Qed.

(** *** The export for the visualisation tool *)


Lemma graphistry_node_ok (d : gmap string value) sid t :
  d !! "scopus_id" = Some sid → d !! "title" = Some t →
  graphistry_node d
  = inr (delete "title"
           (<["paper_title" := t]> (<["scopus_id" := VStr (py_str sid)]> d))).
Proof.
  intros Es Et. unfold graphistry_node. rewrite Es.
  rewrite lookup_insert_ne by done. by rewrite Et.
Qed.

Lemma graphistry_nodes_ok (b : DiGraph) :
  (∀ n d, nodes b !! n = Some d →
          is_Some (d !! "scopus_id") ∧ is_Some (d !! "title")) →
  graphistry_nodes b = inr (mkDiGraph (exported <$> nodes b) (edges b)).
Proof.
  intros Hattr. unfold graphistry_nodes.
  match goal with |- map_fold ?f _ _ = _ => set (F := f) end.
  assert (Hind : ∀ ns, ns ⊆ nodes b →
    map_fold F (inr b) ns
    = inr (mkDiGraph ((exported <$> ns) ∪ nodes b) (edges b))).
  { apply (map_fold_weak_ind (λ r ns, ns ⊆ nodes b →
             r = inr (mkDiGraph ((exported <$> ns) ∪ nodes b) (edges b)))).
    - intros _. rewrite fmap_empty, (left_id_L ∅ (∪)). by destruct b.
    - intros n d ns r Hn IH Hsub.
      assert (Hns : ns ⊆ nodes b).
      { etrans; [|exact Hsub]. by apply insert_subseteq. }
      rewrite (IH Hns). unfold F.
      assert (Hd : nodes b !! n = Some d).
      { eapply lookup_weaken; [|exact Hsub]. apply lookup_insert_eq. }
      destruct (Hattr n d Hd) as [[sid Es] [t Et]].
      unfold exported at 2. rewrite fmap_insert. unfold exported at 2.
      rewrite (graphistry_node_ok d sid t Es Et). simpl.
      by rewrite insert_union_l. }
  rewrite Hind by done. do 2 f_equal.
  apply map_eq. intros n. rewrite lookup_union, lookup_fmap.
  by destruct (nodes b !! n).
Qed.

(** C9. Export purity.  For a graph object all of whose nodes carry the
    attributes ["scopus_id"] and ["title"], [transform_graphistry] returns
    a reference that named no object before, and the store differs from
    the old one at that reference only, so the receiver and every other
    object are as they were.  The new object has the traversal metadata,
    the edges and the node identifiers of the receiver; the attributes of
    each of its nodes are those of the receiver's node except that
    ["scopus_id"] holds the [str] rendering of the old value, that
    ["paper_title"] holds the old ["title"], and that ["title"] is gone. *)
Theorem C9_export_purity (σ : gmap positive (CitationGraph PaperInfo)) r g :
  σ !! r = Some g →
  (∀ n d, nodes (base g) !! n = Some d →
          is_Some (d !! "scopus_id") ∧ is_Some (d !! "title")) →
  ∃ r' g',
    transform_graphistry σ r = Some (<[r' := g']> σ, inr r')
    ∧ σ !! r' = None
    ∧ r' ≠ r
    ∧ <[r' := g']> σ !! r = Some g
    ∧ (∀ q, q ≠ r' → <[r' := g']> σ !! q = σ !! q)
    ∧ (_name g', use_doi g', iter_depth g', papers_by_iter_depth g',
       retrievals_total g', retrievals_failed g')
      = (_name g, use_doi g, iter_depth g, papers_by_iter_depth g,
         retrievals_total g, retrievals_failed g)
    ∧ edges (base g') = edges (base g)
    ∧ dom (nodes (base g')) = dom (nodes (base g))
    ∧ (∀ n d, nodes (base g) !! n = Some d →
         ∃ d' sid t,
           nodes (base g') !! n = Some d'
           ∧ d !! "scopus_id" = Some sid ∧ d !! "title" = Some t
           ∧ d' !! "scopus_id" = Some (VStr (py_str sid))
           ∧ d' !! "paper_title" = Some t
           ∧ d' !! "title" = None
           ∧ ∀ key, key ≠ "scopus_id" → key ≠ "paper_title" → key ≠ "title" →
                    d' !! key = d !! key).
Proof.
  intros Hr Hattr.
  set (r' := fresh (dom σ)).
  assert (Hfresh : σ !! r' = None).
  { apply not_elem_of_dom. apply is_fresh. }
  assert (Hne : r' ≠ r) by congruence.
  exists r', (with_base (λ _, mkDiGraph (exported <$> nodes (base g)) (edges (base g))) g).
  split_and!; try done.
  - unfold transform_graphistry, deepcopy. rewrite Hr. simpl. fold r'.
    rewrite lookup_insert_eq. simpl.
    rewrite (graphistry_nodes_ok _ Hattr). by rewrite insert_insert_eq.
  - by rewrite lookup_insert_ne.
  - intros q Hq. by rewrite lookup_insert_ne.
  - simpl. by rewrite dom_fmap_L.
  - intros n d Hd. destruct (Hattr n d Hd) as [[sid Es] [t Et]].
    exists (exported d), sid, t. simpl. rewrite lookup_fmap, Hd. simpl.
    unfold exported. rewrite (graphistry_node_ok d sid t Es Et).
    split_and!; try done.
    + rewrite lookup_delete_ne, lookup_insert_ne by done.
      by rewrite lookup_insert_eq.
    + rewrite lookup_delete_ne by done. by rewrite lookup_insert_eq.
    + by rewrite lookup_delete_eq.
    + intros key H1 H2 H3.
      by rewrite lookup_delete_ne, !lookup_insert_ne by done.
Qed.


(** ** Further properties of the build *)

(** X4. The graph only grows during a build: from one observable point to
    any later one, every node is still a node with the same attributes,
    every edge is still an edge with the same attributes, and the exchange
    with the collaborator is only extended.  In particular nothing that the
    graph held before the build is removed or overwritten by it. *)
Theorem X4_build_only_grows ids (doi : bool) k m0 i j s t :
  build_trace ids doi k m0 !! i = Some s →
  build_trace ids doi k m0 !! j = Some t →
  (i ≤ j)%nat →
  (∀ n a, nodes (base (self s)) !! n = Some a →
          nodes (base (self t)) !! n = Some a)
  ∧ (∀ e d, edges (base (self s)) !! e = Some d →
            edges (base (self t)) !! e = Some d)
  ∧ history s `prefix_of` history t.
Proof.
  intros Hi Hj Hij.
  destruct (build_trace_grows _ _ _ _ _ _ _ _ Hi Hj Hij)
    as (_ & _ & _ & Hn & He & Hh & _).
  split_and!; [done| |done].
  intros e d Ed. destruct (He e) as [E|[E _]]; congruence.
Qed.

Lemma iterate_loop_use_doi n m m' r :
  iterate_loop n m = (m', r) → use_doi (self m') = use_doi (self m).
Proof.
  revert m. induction n as [|n IH]; intros m; simpl.
  - by intros [= <- <-].
  - destruct (papers_by_iter_depth (self m) !! iter_depth (self m))
      as [papers|] eqn:E.
    + destruct (get_refs_from_scopus (world m) papers (iter_depth (self m) + 1))
        as [w refs] eqn:Er.
      rewrite (iterate_ok _ _ _ _ E Er). cbv zeta.
      set (m0 := mkMachine w _ (self m)).
      pose proof (foldl_iterate_body_frame refs (m0, ∅)) as (_ & _ & _ & Hu & _).
      intros Hl. rewrite (IH _ Hl). simpl. by rewrite Hu.
    + rewrite (iterate_KeyError _ E). by intros [= <- <-].
Qed.

(** X5. Label and identifier scheme.  A build never changes the name of
    the graph.  With a non-negative target depth the graph ends with
    [use_doi] set to the flag that was passed, whatever it held before;
    with a negative one [use_doi] is left as it was. *)
Theorem X5_build_name_and_scheme ids (doi : bool) k m :
  let m' := (build_from_ids ids doi k m).1 in
  name (self m') = name (self m)
  ∧ (0 ≤ k → use_doi (self m') = Some doi)
  ∧ (k < 0 → use_doi (self m') = use_doi (self m)).
Proof.
  intros m'. split_and!.
  - destruct (build_from_ids_grows ids doi k m) as (_ & _ & _ & _ & _ & _ & Hn).
    done.
  - intros Hk. subst m'. unfold build_from_ids.
    rewrite bool_decide_eq_false_2 by lia.
    destruct (iterate_loop _ _) as [m1 r] eqn:El.
    simpl. rewrite (iterate_loop_use_doi _ _ _ _ El).
    rewrite initialise_eq. cbv zeta.
    set (m0 := mkMachine (world m) (history m) _).
    pose proof (foldl_initialise_body_frame (if doi then "doi" else "eid")
                  ids (m0, ∅)) as (_ & _ & Hu & _).
    simpl. by rewrite Hu.
  - intros Hk. subst m'. unfold build_from_ids.
    by rewrite bool_decide_eq_true_2 by lia.
Qed.






(** A pass whose pairs all have a parent that is a node already: the nodes
    are those of the start and the identifiers of the collected papers. *)
Lemma foldl_iterate_body_layer refs (N0 : gset Z)
    (st : machine PaperInfo World * gset PaperInfo) :
  (∀ pa c, (pa, c) ∈ refs → scopus_id pa ∈ N0) →
  dom (nodes (base (self st.1))) = N0 ∪ set_map scopus_id st.2 →
  let st' := foldl iterate_body st refs in
  dom (nodes (base (self st'.1))) = N0 ∪ set_map scopus_id st'.2
  ∧ dom (nodes (base (self st'.1)))
    = dom (nodes (base (self st.1)))
      ∪ list_to_set (scopus_id <$> omap snd refs).
Proof.
  revert st. induction refs as [|[pa c] refs IH]; intros [m acc] Hpar Hdom.
  - simpl in *. split; [done|]. set_solver.
  - cbn [foldl].
    assert (Hpa : scopus_id pa ∈ N0) by (eapply Hpar; left).
    destruct (IH (iterate_body (m, acc) (pa, c))) as [H1 H2].
    { intros pa' c' Hin. eapply Hpar. by right. }
    { rewrite iterate_body_eq. destruct c as [c|]; simpl in *; [|done].
      rewrite add_cit_graph_edge_nodes_dom, Hdom.
      destruct (bool_decide (c ∉ acc) && negb (has_node (base (self m)) (scopus_id c)))
        eqn:Hgate.
      - rewrite set_map_union_L, set_map_singleton_L. set_solver.
      - apply andb_false_iff in Hgate as [Hc|Hc].
        + apply bool_decide_eq_false in Hc. apply dec_stable in Hc.
          assert (scopus_id c ∈ (set_map scopus_id acc : gset Z))
            by (by apply elem_of_map_2).
          set_solver.
        + apply negb_false_iff, has_node_true, elem_of_dom in Hc.
          rewrite Hdom in Hc. set_solver. }
    split; [done|]. rewrite H2, iterate_body_eq.
    destruct c as [c|]; simpl in *.
    + rewrite add_cit_graph_edge_nodes_dom.
      cbn [omap list_omap snd fmap list_fmap list_to_set].
      rewrite Hdom. set_solver.
    + cbn [omap list_omap snd]. done.
Qed.

(** X7. A pass records exactly the layer it discovers.  When every pair
    received in a pass has a parent that is already a node (as when the
    collaborator answers about the frontier it was given), the nodes after
    the pass are the nodes before it together with the identifiers of the
    children received, and the identifiers of the papers in the frontier
    the pass records are exactly the nodes the pass added. *)
Theorem X7_pass_records_new_layer m papers w refs :
  papers_by_iter_depth (self m) !! iter_depth (self m) = Some papers →
  get_refs_from_scopus (world m) papers (iter_depth (self m) + 1) = (w, refs) →
  (∀ pa c, (pa, c) ∈ refs → is_Some (nodes (base (self m)) !! scopus_id pa)) →
  ∃ m' ps,
    __iterate m = (m', inr ())
    ∧ papers_by_iter_depth (self m') !! (iter_depth (self m) + 1) = Some ps
    ∧ dom (nodes (base (self m')))
      = dom (nodes (base (self m))) ∪ list_to_set (scopus_id <$> omap snd refs)
    ∧ set_map scopus_id ps
      = dom (nodes (base (self m'))) ∖ dom (nodes (base (self m))).
Proof.
  intros E Er Hpar. rewrite (iterate_ok _ _ _ _ E Er). cbv zeta.
  set (m0 := mkMachine w _ (self m)). set (st := foldl iterate_body (m0, ∅) refs).
  destruct (foldl_iterate_body_layer refs (dom (nodes (base (self m)))) (m0, ∅))
    as [H1 H2].
  { intros pa c Hin. apply elem_of_dom. by eapply Hpar. }
  { simpl. rewrite set_map_empty. set_solver. }
  pose proof (foldl_iterate_body_acc refs (nodes (base (self m))) (m0, ∅)) as Hacc.
  specialize (Hacc (λ _ _ E, E)). specialize (Hacc ltac:(set_solver)).
  fold st in H1, H2, Hacc. simpl in H1, H2, Hacc.
  eexists _, st.2. split; [done|]. simpl. rewrite lookup_insert_eq.
  split_and!; [done..|].
  rewrite H1. apply set_eq. intros n.
  rewrite elem_of_difference, elem_of_union, elem_of_map. split.
  - intros (p & -> & Hp). split; [right; by exists p|].
    destruct (Hacc p Hp) as [_ Hnone]. by apply not_elem_of_dom.
  - intros [[?|?] ?]; done.
Qed.

(** In the set collected by a pass no two papers have the same
    [scopus_id]. *)
Lemma foldl_iterate_body_inj refs
    (st : machine PaperInfo World * gset PaperInfo) :
  (∀ p, p ∈ st.2 → is_Some (nodes (base (self st.1)) !! scopus_id p)) →
  (∀ p q, p ∈ st.2 → q ∈ st.2 → scopus_id p = scopus_id q → p = q) →
  let st' := foldl iterate_body st refs in
  ∀ p q, p ∈ st'.2 → q ∈ st'.2 → scopus_id p = scopus_id q → p = q.
Proof.
  revert st. induction refs as [|[pa c] refs IH]; intros [m acc] Hnode Hinj;
    [done|].
  cbn [foldl]. apply IH; clear IH; rewrite iterate_body_eq;
    destruct c as [c|]; simpl in *; try done.
  - intros p Hp.
    assert (Hcase : p ∈ acc ∨ p = c) by (case_match; set_solver).
    destruct Hcase as [Hin| ->].
    + destruct (Hnode p Hin) as [a Ea]. exists a.
      by apply add_cit_graph_edge_keeps.
    + apply elem_of_dom. rewrite add_cit_graph_edge_nodes_dom. set_solver.
  - destruct (bool_decide (c ∉ acc) && negb (has_node (base (self m)) (scopus_id c)))
      eqn:Hgate; [|done].
    apply andb_true_iff in Hgate as [_ Hc].
    apply negb_true_iff, has_node_false in Hc.
    intros p q [Hp|Hp%elem_of_singleton]%elem_of_union
               [Hq|Hq%elem_of_singleton]%elem_of_union Heq; subst.
    + by apply Hinj.
    + destruct (Hnode p Hp) as [a Ea]. congruence.
    + destruct (Hnode q Hq) as [a Ea]. congruence.
    + done.
Qed.

Lemma iterate_frontier_inj m m' ps p q :
  __iterate m = (m', inr ()) →
  papers_by_iter_depth (self m') !! (iter_depth (self m) + 1) = Some ps →
  p ∈ ps → q ∈ ps → scopus_id p = scopus_id q → p = q.
Proof.
  intros Hit.
  destruct (papers_by_iter_depth (self m) !! iter_depth (self m))
    as [papers|] eqn:E; [|by rewrite (iterate_KeyError _ E) in Hit].
  destruct (get_refs_from_scopus (world m) papers (iter_depth (self m) + 1))
    as [w refs] eqn:Er.
  rewrite (iterate_ok _ _ _ _ E Er) in Hit. cbv zeta in Hit.
  set (m0 := mkMachine w _ (self m)) in Hit.
  pose proof (foldl_iterate_body_inj refs (m0, ∅)) as Hinj.
  injection Hit as <-. simpl. rewrite lookup_insert_eq. intros [= <-].
  apply Hinj; set_solver.
Qed.


Lemma iterate_loop_frontier_inj n m m' (d0 : Z) :
  d0 ≤ iter_depth (self m) →
  (∀ d ps p q, d0 < d → papers_by_iter_depth (self m) !! d = Some ps →
               p ∈ ps → q ∈ ps → scopus_id p = scopus_id q → p = q) →
  iterate_loop n m = (m', inr ()) →
  ∀ d ps p q, d0 < d → papers_by_iter_depth (self m') !! d = Some ps →
              p ∈ ps → q ∈ ps → scopus_id p = scopus_id q → p = q.
Proof.
  revert m. induction n as [|n IH]; intros m Hd0 Hinj Hl; simpl in Hl.
  - by injection Hl as <-.
  - destruct (__iterate m) as [m1 [e|[]]] eqn:E1; [done|].
    pose proof (iterate_depth _ _ _ E1) as Hd1. simpl in Hd1.
    apply (IH m1); [lia| |done].
    intros d ps p q Hd Hps.
    destruct (decide (d = iter_depth (self m) + 1)) as [->|Hne].
    + by eapply iterate_frontier_inj.
    + destruct (iterate_frontier m) as (m2 & E2 & _ & ps' & Hp2).
      { destruct (papers_by_iter_depth (self m) !! iter_depth (self m)) eqn:E;
          [eauto|]. by rewrite (iterate_KeyError _ E) in E1. }
      rewrite E1 in E2. injection E2 as <-.
      rewrite Hp2, lookup_insert_ne in Hps by done. by eapply Hinj.
Qed.

(** X8. One paper per identifier beyond the seeds.  The frontier that an
    expansion pass records never holds two different papers with the same
    [scopus_id]; so after a build started on a graph without recorded
    frontiers this holds for the frontier of every depth above the starting
    one.  (The seed frontier is deduplicated by value only.) *)
Theorem X8_frontier_one_paper_per_id ids (doi : bool) k m :
  papers_by_iter_depth (self m) = ∅ →
  let m' := (build_from_ids ids doi k m).1 in
  (∀ d ps p q,
     iter_depth (self m) < d →
     papers_by_iter_depth (self m') !! d = Some ps →
     p ∈ ps → q ∈ ps → scopus_id p = scopus_id q → p = q)
  ∧ (∀ m1 m2 ps p q,
       __iterate m1 = (m2, inr ()) →
       papers_by_iter_depth (self m2) !! (iter_depth (self m1) + 1) = Some ps →
       p ∈ ps → q ∈ ps → scopus_id p = scopus_id q → p = q).
Proof.
  intros Hempty m'. split; [|intros m1 m2 ps p q; apply iterate_frontier_inj].
  subst m'. destruct (decide (k < 0)) as [Hk|Hk].
  - unfold build_from_ids. rewrite bool_decide_eq_true_2 by done. simpl.
    intros d ps p q _. by rewrite Hempty, lookup_empty.
  - destruct (build_from_ids_frontier ids doi k m) as (m' & E & _); [lia|].
    rewrite E. simpl. unfold build_from_ids in E.
    rewrite bool_decide_eq_false_2 in E by done.
    destruct (initialise_frontier ids doi m) as (Hd & ps0 & Hp).
    eapply iterate_loop_frontier_inj; [| |exact E].
    + rewrite Hd. lia.
    + intros d ps p q Hlt. rewrite Hp, Hempty, lookup_insert_ne by lia.
      by rewrite lookup_empty.
Qed.

Lemma iterate_loop_keeps_lower n m m' r :
  iterate_loop n m = (m', r) →
  ∀ d, d ≤ iter_depth (self m) →
       papers_by_iter_depth (self m') !! d = papers_by_iter_depth (self m) !! d.
Proof.
  revert m. induction n as [|n IH]; intros m Hl d Hd; simpl in Hl.
  - by injection Hl as <- <-.
  - destruct (papers_by_iter_depth (self m) !! iter_depth (self m)) eqn:E.
    + destruct (iterate_frontier m) as (m1 & E1 & Hd1 & ps & Hp1); [by eauto|].
      rewrite E1 in Hl. rewrite (IH m1 Hl) by lia.
      rewrite Hp1. by rewrite lookup_insert_ne by lia.
    + rewrite (iterate_KeyError _ E) in Hl. by injection Hl as <- <-.
Qed.

Lemma iterate_loop_grows n m : grows m (iterate_loop n m).1.
Proof.
  pose proof (loop_trace_last n m []) as Hlast.
  rewrite last_lookup in Hlast. simpl in Hlast.
  eapply (chain_lookup grows (m :: loop_trace n m) 0);
    eauto using step_grows, loop_trace_chain. lia.
Qed.

(** X9. A build on any graph, new or not.  With a non-negative target
    depth [k] the build returns normally from whatever state the graph is
    in.  It asks for the seeds at the depth the graph is at, replaces the
    frontier recorded at that depth by the set of resolved seeds, leaves the
    frontiers of lower depths alone, moves [iter_depth] up by [k], and
    afterwards a frontier is recorded at a depth exactly if one was
    recorded before or the depth lies between the old and the new
    [iter_depth].  Nodes that existed keep their attributes, and the
    counters go on from their old values. *)
Theorem X9_build_on_any_graph ids (doi : bool) k m w l :
  0 ≤ k →
  resolve_seeds (world m) ids (if doi then "doi" else "eid") (iter_depth (self m))
  = (w, l) →
  ∃ m',
    build_from_ids ids doi k m = (m', inr ())
    ∧ iter_depth (self m') = iter_depth (self m) + k
    ∧ papers_by_iter_depth (self m') !! iter_depth (self m)
      = Some (list_to_set (omap id l))
    ∧ (∀ d, d < iter_depth (self m) →
            papers_by_iter_depth (self m') !! d
            = papers_by_iter_depth (self m) !! d)
    ∧ (∀ d, is_Some (papers_by_iter_depth (self m') !! d)
            ↔ is_Some (papers_by_iter_depth (self m) !! d)
              ∨ iter_depth (self m) ≤ d ≤ iter_depth (self m) + k)
    ∧ (∀ n a, nodes (base (self m)) !! n = Some a →
              nodes (base (self m')) !! n = Some a)
    ∧ retrievals_total (self m) + Z.of_nat (length ids)
      ≤ retrievals_total (self m')
    ∧ retrievals_failed (self m)
      + Z.of_nat (length (filter (λ a, a = None) l))
      ≤ retrievals_failed (self m').
Proof.
  intros Hk Hr.
  destruct (build_from_ids_frontier ids doi k m Hk) as (m' & E & Hd & Hkeys).
  exists m'. split; [done|]. split; [done|].
  pose proof E as El. unfold build_from_ids in El.
  rewrite bool_decide_eq_false_2 in El by lia.
  pose proof (iterate_loop_keeps_lower _ _ _ _ El) as Hlow.
  destruct (initialise_frontier ids doi m) as (Hd0 & ps & Hp0).
  rewrite Hd0 in Hlow.
  assert (Hinit :
    papers_by_iter_depth (self (__initialise ids doi m))
    = <[iter_depth (self m) := list_to_set (omap id l)]>
        (papers_by_iter_depth (self m))
    ∧ retrievals_total (self (__initialise ids doi m))
      = retrievals_total (self m) + Z.of_nat (length ids)
    ∧ retrievals_failed (self (__initialise ids doi m))
      = retrievals_failed (self m)
        + Z.of_nat (length (filter (λ a, a = None) l))).
  { rewrite initialise_eq. cbv zeta.
    set (m0 := mkMachine (world m) (history m) _).
    pose proof (foldl_initialise_body_frame (if doi then "doi" else "eid")
                  ids (m0, ∅)) as (Hd1 & Hp1 & _).
    destruct (foldl_initialise_body_spec (if doi then "doi" else "eid")
                ids m0 ∅ w l Hr) as (_ & _ & Hacc & _ & Ht & Hf & _).
    simpl in *. rewrite Hd1, Hp1, Hacc, Ht, Hf, (left_id_L ∅ (∪)). done. }
  destruct Hinit as (Hpi & Hti & Hfi).
  destruct (build_from_ids_grows ids doi k m) as (_ & _ & _ & Hn & _).
  rewrite E in Hn. simpl in Hn.
  assert (Hg : grows (__initialise ids doi m) m').
  { pose proof (iterate_loop_grows (Z.to_nat k) (__initialise ids doi m)) as Hg.
    by rewrite El in Hg. }
  destruct Hg as (Ht & Hf & _).
  split_and!.
  - rewrite Hlow by lia. by rewrite Hpi, lookup_insert_eq.
  - intros d Hlt. rewrite Hlow by lia. rewrite Hpi. by rewrite lookup_insert_ne by lia.
  - done.
  - done.
  - lia.
  - lia.
Qed.


(** *** The calls made to the collaborator *)

Lemma foldl_iterate_body_history refs
    (st : machine PaperInfo World * gset PaperInfo) :
  history (foldl iterate_body st refs).1
  = history st.1 ++ ((λ r, EvPair r.1 r.2) <$> refs).
Proof.
  revert st. induction refs as [|[pa c] refs IH]; intros [m acc].
  - simpl. by rewrite (right_id_L [] (++)).
  - cbn [foldl]. rewrite IH, iterate_body_eq.
    destruct c; simpl; by rewrite <- (assoc_L (++)).
Qed.

Lemma get_calls_app (h1 h2 : list (event PaperInfo)) :
  get_calls (h1 ++ h2) = get_calls h1 ++ get_calls h2.
Proof. apply omap_app. Qed.

Lemma refs_calls_app (h1 h2 : list (event PaperInfo)) :
  refs_calls (h1 ++ h2) = refs_calls h1 ++ refs_calls h2.
Proof. apply omap_app. Qed.

Lemma calls_of_pairs (refs : list (PaperInfo * option PaperInfo)) :
  get_calls ((λ r, EvPair r.1 r.2) <$> refs) = []
  ∧ refs_calls ((λ r, EvPair r.1 r.2) <$> refs) = [].
Proof. induction refs as [|r refs [IH1 IH2]]; [done|]. by split. Qed.

Lemma calls_of_lookups (ids : list string) id_type d (l : list (option PaperInfo)) :
  length l = length ids →
  get_calls (zip_with (λ i a, EvGet i id_type d a) ids l)
  = (λ i, (i, id_type, d)) <$> ids
  ∧ refs_calls (zip_with (λ i a, EvGet i id_type d a) ids l) = [].
Proof.
  revert l. induction ids as [|i ids IH]; intros [|a l] Hlen; try done.
  destruct (IH l) as [IH1 IH2]; [by injection Hlen|].
  split; [|done]. unfold get_calls in *. cbn [zip_with omap list_omap].
  rewrite fmap_cons. f_equal. exact IH1.
Qed.

Lemma iterate_loop_calls n m m' :
  iterate_loop n m = (m', inr ()) →
  get_calls (history m') = get_calls (history m)
  ∧ ∃ l, refs_calls (history m') = refs_calls (history m) ++ l
         ∧ l.*2 = seqZ (iter_depth (self m) + 1) (Z.of_nat n)
         ∧ ∀ ps d, (ps, d) ∈ l →
                   papers_by_iter_depth (self m') !! (d - 1) = Some ps.
Proof.
  revert m. induction n as [|n IH]; intros m Hl.
  - simpl in Hl. injection Hl as <-. split; [done|]. exists [].
    split_and!; [by rewrite (right_id_L [] (++))|done|].
    intros ps d Hin. by apply elem_of_nil in Hin.
  - pose proof Hl as Hl0. cbn [iterate_loop] in Hl.
    destruct (papers_by_iter_depth (self m) !! iter_depth (self m))
      as [papers|] eqn:E; [|by rewrite (iterate_KeyError _ E) in Hl].
    destruct (get_refs_from_scopus (world m) papers (iter_depth (self m) + 1))
      as [w refs] eqn:Er.
    rewrite (iterate_ok _ _ _ _ E Er) in Hl. cbv zeta in Hl.
    set (m0 := mkMachine w _ (self m)) in Hl.
    set (m1 := mkMachine _ _ _) in Hl.
    assert (Hh1 : history m1
                  = history m ++ EvRefs papers (iter_depth (self m) + 1)
                      :: ((λ r, EvPair r.1 r.2) <$> refs)).
    { subst m1. simpl. rewrite foldl_iterate_body_history. simpl.
      by rewrite <- (assoc_L (++)). }
    assert (Hd1 : iter_depth (self m1) = iter_depth (self m) + 1) by done.
    assert (Hp1 : papers_by_iter_depth (self m1) !! iter_depth (self m)
                  = Some papers).
    { subst m1. simpl. rewrite lookup_insert_ne by lia.
      pose proof (foldl_iterate_body_frame refs (m0, ∅)) as (_ & _ & Hp & _).
      simpl in Hp. by rewrite Hp. }
    destruct (IH m1 Hl) as (Hg & l2 & Hr2 & Hseq & Hall).
    pose proof (iterate_loop_keeps_lower _ _ _ _ Hl) as Hlow.
    destruct (calls_of_pairs refs) as [Hcp1 Hcp2].
    set (pairs := (λ r, EvPair r.1 r.2) <$> refs) in *.
    assert (Hx : get_calls (EvRefs papers (iter_depth (self m) + 1) :: pairs) = [])
      by exact Hcp1.
    assert (Hy : refs_calls (EvRefs papers (iter_depth (self m) + 1) :: pairs)
                 = [(papers, iter_depth (self m) + 1)])
      by exact (f_equal (cons (papers, iter_depth (self m) + 1)) Hcp2).
    split.
    + by rewrite Hg, Hh1, get_calls_app, Hx, (right_id_L [] (++)).
    + exists ((papers, iter_depth (self m) + 1) :: l2). split_and!.
      * rewrite Hr2, Hh1, refs_calls_app, Hy. by rewrite <- (assoc_L (++)).
      * rewrite fmap_cons, Hseq, Hd1. cbn [snd].
        rewrite (seqZ_cons (iter_depth (self m) + 1) (Z.of_nat (S n))) by lia.
        do 2 f_equal; lia.
      * intros ps d [[= -> ->]|Hin]%elem_of_cons; [|by apply Hall].
        replace (iter_depth (self m) + 1 - 1) with (iter_depth (self m)) by lia.
        rewrite Hlow by lia. done.
Qed.

(** X10. What a build asks of the collaborator.  A build with target
    depth [k >= 0] calls [get_from_scopus] once per seed identifier, in
    order, each time with the scheme chosen by the flag (["doi"] or
    ["eid"]) and with the depth the graph was at; it then calls
    [get_refs_from_scopus] exactly [k] times, with the target depths that
    follow that depth one by one, and the frontier passed with target depth
    [d] is the one the finished graph records at depth [d - 1]. *)
Theorem X10_build_collaborator_calls ids (doi : bool) k m :
  0 ≤ k →
  ∃ m' l,
    build_from_ids ids doi k m = (m', inr ())
    ∧ get_calls (history m')
      = get_calls (history m)
        ++ ((λ i, (i, if doi then "doi" else "eid", iter_depth (self m))) <$> ids)
    ∧ refs_calls (history m') = refs_calls (history m) ++ l
    ∧ l.*2 = seqZ (iter_depth (self m) + 1) k
    ∧ ∀ ps d, (ps, d) ∈ l →
              papers_by_iter_depth (self m') !! (d - 1) = Some ps.
Proof.
  intros Hk.
  destruct (build_from_ids_frontier ids doi k m Hk) as (m' & E & _).
  pose proof E as El. unfold build_from_ids in El.
  rewrite bool_decide_eq_false_2 in El by lia.
  destruct (iterate_loop_calls _ _ _ El) as (Hg & l & Hr & Hseq & Hall).
  destruct (initialise_frontier ids doi m) as (Hd0 & _).
  destruct (resolve_seeds (world m) ids (if doi then "doi" else "eid")
              (iter_depth (self m))) as [w ans] eqn:Hres.
  assert (Hh : history (__initialise ids doi m)
               = history m ++ zip_with
                   (λ i a, EvGet i (if doi then "doi" else "eid")
                             (iter_depth (self m)) a) ids ans
               ∧ length ans = length ids).
  { rewrite initialise_eq. cbv zeta.
    set (m0 := mkMachine (world m) (history m) _).
    destruct (foldl_initialise_body_spec (if doi then "doi" else "eid")
                ids m0 ∅ w ans Hres) as (_ & Hh & _ & _ & _ & _ & Hlen).
    simpl in *. by rewrite Hh. }
  destruct Hh as [Hh Hlen].
  destruct (calls_of_lookups ids (if doi then "doi" else "eid")
              (iter_depth (self m)) ans Hlen) as [Hc1 Hc2].
  exists m', l. split; [done|]. split_and!.
  - by rewrite Hg, Hh, get_calls_app, Hc1.
  - by rewrite Hr, Hh, refs_calls_app, Hc2, (right_id_L [] (++)).
  - rewrite Hseq, Hd0. by rewrite Z2Nat.id by lia.
  - done.
Qed.


(** ** Further properties of the export *)

Lemma graphistry_node_inl (d : gmap string value) e :
  graphistry_node d = inl e →
  e = KeyError (VStr "scopus_id") ∨ e = KeyError (VStr "title").
Proof.
  unfold graphistry_node. destruct (d !! "scopus_id"); [|intros [= <-]; by left].
  destruct (_ !! "title"); [done|]. intros [= <-]. by right.
Qed.

Lemma graphistry_node_bad (d : gmap string value) :
  ¬ has_export_attributes d → ∃ e, graphistry_node d = inl e.
Proof.
  intros Hbad. unfold graphistry_node.
  destruct (d !! "scopus_id") as [sid|] eqn:Es; [|eauto].
  rewrite lookup_insert_ne by done.
  destruct (d !! "title") as [t|] eqn:Et; [|eauto].
  destruct Hbad. unfold has_export_attributes. rewrite Es, Et. eauto.
Qed.

Lemma graphistry_nodes_fail (b : DiGraph) n d :
  nodes b !! n = Some d → ¬ has_export_attributes d →
  ∃ key, (key = "scopus_id" ∨ key = "title")
         ∧ graphistry_nodes b = inl (KeyError (VStr key)).
Proof.
  intros Hn Hbad. unfold graphistry_nodes.
  match goal with |- context [map_fold ?f _ _] => set (F := f) end.
  assert (Hind : ∀ ns,
    (∀ e, map_fold F (inr b) ns = inl e →
          e = KeyError (VStr "scopus_id") ∨ e = KeyError (VStr "title"))
    ∧ ((∃ i x, ns !! i = Some x ∧ ¬ has_export_attributes x) →
       ∃ e, map_fold F (inr b) ns = inl e)).
  { apply (map_fold_weak_ind (λ r ns,
      (∀ e, r = inl e →
            e = KeyError (VStr "scopus_id") ∨ e = KeyError (VStr "title"))
      ∧ ((∃ i x, ns !! i = Some x ∧ ¬ has_export_attributes x) →
         ∃ e, r = inl e))).
    - split; [done|]. intros (i & x & Hi & _). by rewrite lookup_empty in Hi.
    - intros i x ns r Hi [IH1 IH2]. unfold F. split.
      + intros e. destruct r as [e0|g']; [intros [= <-]; by apply IH1|].
        destruct (graphistry_node x) as [e1|d'] eqn:Ex; [|done].
        intros [= <-]. by eapply graphistry_node_inl.
      + intros (j & y & Hj & Hy). destruct r as [e0|g']; [eauto|].
        apply lookup_insert_Some in Hj as [[<- <-]|[_ Hj]].
        * destruct (graphistry_node_bad x Hy) as [e ->]. eauto.
        * destruct IH2 as [e He]; [eauto|done]. }
  destruct (Hind (nodes b)) as [H1 H2].
  destruct H2 as [e He]; [eauto|]. rewrite He.
  destruct (H1 e He) as [->| ->]; eauto.
Qed.

(** X11. When the export fails.  [transform_graphistry] raises exactly
    when some node lacks the attribute ["scopus_id"] or ["title"]; the
    exception is then a [KeyError] for one of these two keys, and no object
    of the store is changed or added. *)
Theorem X11_export_fails_on_missing_attribute
    (σ : gmap positive (CitationGraph PaperInfo)) r g :
  σ !! r = Some g →
  (∃ n d, nodes (base g) !! n = Some d ∧ ¬ has_export_attributes d)
  ↔ (∃ key, (key = "scopus_id" ∨ key = "title")
            ∧ transform_graphistry σ r = Some (σ, inl (KeyError (VStr key)))).
Proof.
  intros Hr. split.
  - intros (n & d & Hn & Hbad).
    destruct (graphistry_nodes_fail (base g) n d Hn Hbad) as (key & Hkey & Hf).
    exists key. split; [done|].
    unfold transform_graphistry, deepcopy. rewrite Hr. simpl.
    rewrite lookup_insert_eq. simpl. by rewrite Hf.
  - intros (key & _ & Ht).
    apply (map_not_Forall (λ _ d, has_export_attributes d)).
    intros Hall. unfold transform_graphistry, deepcopy in Ht.
    rewrite Hr in Ht. simpl in Ht. rewrite lookup_insert_eq in Ht. simpl in Ht.
    rewrite (graphistry_nodes_ok (base g)) in Ht; [done|].
    intros n d Hd. exact (Hall n d Hd).
Qed.

Lemma graphistry_nodes_no_title (b : DiGraph) :
  (∀ n d, nodes b !! n = Some d →
          is_Some (d !! "scopus_id") ∧ d !! "title" = None) →
  nodes b ≠ ∅ →
  graphistry_nodes b = inl (KeyError (VStr "title")).
Proof.
  intros Hall Hne. unfold graphistry_nodes.
  match goal with |- context [map_fold ?f _ _] => set (F := f) end.
  assert (Hind : ∀ ns,
    (∀ n d, ns !! n = Some d →
            is_Some (d !! "scopus_id") ∧ d !! "title" = None) →
    (ns = ∅ ∧ map_fold F (inr b) ns = inr b)
    ∨ (ns ≠ ∅ ∧ map_fold F (inr b) ns = inl (KeyError (VStr "title")))).
  { apply (map_fold_weak_ind (λ r ns,
      (∀ n d, ns !! n = Some d →
              is_Some (d !! "scopus_id") ∧ d !! "title" = None) →
      (ns = ∅ ∧ r = inr b) ∨ (ns ≠ ∅ ∧ r = inl (KeyError (VStr "title"))))).
    - intros _. by left.
    - intros i x ns r Hi IH Hns. right. split; [apply insert_non_empty|].
      destruct (Hns i x) as [[sid Es] Et]; [apply lookup_insert_eq|].
      assert (Hx : graphistry_node x = inl (KeyError (VStr "title"))).
      { unfold graphistry_node. rewrite Es.
        rewrite lookup_insert_ne by done. by rewrite Et. }
      destruct IH as [[_ ->]|[_ ->]]; unfold F; [|by rewrite Hx|done].
      intros n d Hd. apply (Hns n d).
      rewrite lookup_insert_ne; [done|]. congruence. }
  destruct (Hind (nodes b) Hall) as [[? _]|[_ ?]]; done.
Qed.

(** X12. The export cannot be applied twice.  Exporting a graph with at
    least one node succeeds only once: the exported copy has lost the
    ["title"] attribute on every node, so calling [transform_graphistry] on
    the copy raises [KeyError] for ["title"]. *)
Theorem X12_export_of_an_export_fails
    (σ : gmap positive (CitationGraph PaperInfo)) r g :
  σ !! r = Some g →
  (∀ n d, nodes (base g) !! n = Some d → has_export_attributes d) →
  nodes (base g) ≠ ∅ →
  ∃ r' g',
    transform_graphistry σ r = Some (<[r' := g']> σ, inr r')
    ∧ transform_graphistry (<[r' := g']> σ) r'
      = Some (<[r' := g']> σ, inl (KeyError (VStr "title"))).
Proof.
  intros Hr Hattr Hne.
  set (g' := with_base
    (λ _, mkDiGraph (exported <$> nodes (base g)) (edges (base g))) g).
  exists (fresh (dom σ)), g'. split.
  - unfold transform_graphistry, deepcopy. rewrite Hr. simpl.
    rewrite lookup_insert_eq. simpl.
    rewrite (graphistry_nodes_ok _ Hattr). by rewrite insert_insert_eq.
  - unfold transform_graphistry, deepcopy. rewrite lookup_insert_eq. simpl.
    rewrite lookup_insert_eq. simpl.
    rewrite graphistry_nodes_no_title; [done| |].
    + intros n d'. simpl. rewrite lookup_fmap.
      destruct (nodes (base g) !! n) as [d|] eqn:Ed; [|done].
      intros [= <-]. destruct (Hattr n d Ed) as [[sid Es] [t Et]].
      unfold exported. rewrite (graphistry_node_ok d sid t Es Et).
      rewrite lookup_delete_eq, lookup_delete_ne by done.
      rewrite lookup_insert_ne by done. rewrite lookup_insert_eq. eauto.
    + simpl. intros Hem. by apply fmap_empty_inv in Hem.
Qed.

(** X13. The export keeps the printed form: the copy returned by
    [transform_graphistry] has the [name] and the [__repr__] string of the
    graph it was made from (same label, depth, number of nodes and number
    of edges). *)
Theorem X13_export_keeps_repr
    (σ : gmap positive (CitationGraph PaperInfo)) r g :
  σ !! r = Some g →
  (∀ n d, nodes (base g) !! n = Some d → has_export_attributes d) →
  ∃ r' g',
    transform_graphistry σ r = Some (<[r' := g']> σ, inr r')
    ∧ name g' = name g
    ∧ __repr__ g' = __repr__ g.
Proof.
  intros Hr Hattr.
  set (g' := with_base
    (λ _, mkDiGraph (exported <$> nodes (base g)) (edges (base g))) g).
  exists (fresh (dom σ)), g'. split_and!; [|done|].
  - unfold transform_graphistry, deepcopy. rewrite Hr. simpl.
    rewrite lookup_insert_eq. simpl.
    rewrite (graphistry_nodes_ok _ Hattr). by rewrite insert_insert_eq.
  - unfold __repr__, name. simpl. by rewrite map_size_fmap.
Qed.

End build.


Import Demo.

Example demo_scenario_B :
  let g := self (Demo.built ["id1"; "id3"] 0) in
  (size (nodes (base g)), size (edges (base g)),
   retrievals_total g, retrievals_failed g) = (1%nat, 0%nat, 2, 1).
Proof. vm_compute. reflexivity. Qed.

Example demo_depth_2 :
  let g := self (Demo.built ["id1"; "id2"] 2) in
  (elements <$> papers_by_iter_depth g !! 0,
   elements <$> papers_by_iter_depth g !! 1,
   elements <$> papers_by_iter_depth g !! 2,
   size (nodes (base g)), size (edges (base g)),
   retrievals_total g, retrievals_failed g, iter_depth g)
  = (Some [Demo.pA; Demo.pB], Some [Demo.pC], Some [], 3%nat, 4%nat, 7, 1, 2).
Proof. vm_compute. reflexivity. Qed.

(** ** The theorems at work on the small database *)

Lemma C1_witness :
  papers_by_iter_depth (self (start 0%nat "CitationGraph" : machine paper nat)) = ∅
  ∧ scopus_id pA ≠ scopus_id pC.
Proof.
  split; [reflexivity|].
  refine (proj1 (C1_frontier_disjointness ["id1"; "id2"] true 2
                   (start 0%nat "CitationGraph") eq_refl)
            0 1 {[pA; pB]} {[pC]} pA pC _ _ _ _ _).
  - lia.
  - vm_compute. reflexivity.
  - vm_compute. reflexivity.
  - set_solver.
  - set_solver.
Defined.

Lemma C2_witness :
  0 ≤ 2 ∧ iter_depth (self (built ["id1"; "id2"] 2)) = 2.
Proof.
  split; [lia|].
  destruct (C2_depth_contiguity ["id1"; "id2"] true 2 0%nat "CitationGraph")
    as ((m' & E & Hd & _) & _); [lia|].
  unfold built. rewrite E. exact Hd.
Defined.

Lemma C3_witness :
  get_from_scopus 0%nat "id4" "doi" 0 = (1%nat, Some pD)
  ∧ get_refs_from_scopus 1%nat {[pD]} 1 = (2%nat, [(pD, Some pD)])
  ∧ ∃ m', build_from_ids ["id4"] true 1 (start 0%nat "CitationGraph") = (m', inr ())
          ∧ nodes (base (self m')) = {[scopus_id pD := graph_properties_as_dict pD]}
          ∧ edges (base (self m')) = {[(scopus_id pD, scopus_id pD) := ∅]}
          ∧ papers_by_iter_depth (self m') !! 0 = Some {[pD]}
          ∧ papers_by_iter_depth (self m') !! 1 = Some ∅.
Proof.
  split; [reflexivity|]. split; [vm_compute; reflexivity|].
  apply (proj2 (proj2 (proj2 C3_per_pair_processing))
           0%nat "CitationGraph" true "id4" pD 1%nat 2%nat).
  - reflexivity.
  - vm_compute. reflexivity.
Defined.

Lemma C4_witness :
  let g := add_cit_graph_node DiGraph_empty 1 {["title" := VStr "A"]} in
  nodes g !! 1 = Some {["title" := VStr "A"]}
  ∧ add_cit_graph_node g 1 {["title" := VStr "B"]} = g.
Proof.
  intros g. split; [vm_compute; reflexivity|].
  apply (proj1 (proj2 (proj2 C4_node_upsert_idempotence))
           g 1 {["title" := VStr "A"]} {["title" := VStr "B"]}).
  vm_compute. reflexivity.
Defined.

Lemma C5_witness :
  ∃ d, edges (add_cit_graph_edge DiGraph_empty 1 ∅ 2 ∅ (Some 5)) !! (1, 2) = Some d
       ∧ d !! "weight" = Some (VInt 5).
Proof.
  destruct (C5_edge_upsert_semantics DiGraph_empty 1 2 ∅ ∅ (Some 5))
    as (_ & _ & _ & _ & _ & _ & _ & _ & _ & Hw & _).
  destruct (Hw 5 eq_refl) as (d & Hd & Hweight & _). eauto.
Defined.


Lemma C7_witness :
  resolve_seeds 0%nat ["id1"; "id3"] "doi" 0 = (2%nat, [Some pA; None])
  ∧ papers_by_iter_depth (self (__initialise ["id1"; "id3"] true
                                  (start 0%nat "CitationGraph")))
    = {[0 := {[pA]}]}.
Proof.
  assert (E : resolve_seeds 0%nat ["id1"; "id3"] "doi" 0
              = (2%nat, [Some pA; None])).
  { vm_compute. reflexivity. }
  split; [exact E|].
  destruct (C7_initialisation_postcondition ["id1"; "id3"] true 0%nat
              "CitationGraph" 2%nat [Some pA; None] E)
    as ((Hp & _) & _).
  rewrite Hp. simpl. by rewrite (right_id_L ∅ (∪)).
Defined.

Lemma C8_witness :
  -1 < 0
  ∧ build_from_ids ["id1"] true (-1) (start 0%nat "CitationGraph")
    = (start 0%nat "CitationGraph",
       inl (ValueError "Target depth must be non-negative!")).
Proof.
  split; [lia|].
  apply (proj1 (C8_input_validation ["id1"] true (-1)
                  (start 0%nat "CitationGraph"))).
  lia.
Defined.

Lemma C9_witness :
  let g := self (built ["id1"; "id2"] 1) in
  let σ : gmap positive (CitationGraph paper) := {[1%positive := g]} in
  ∃ r' g',
    transform_graphistry σ 1%positive = Some (<[r' := g']> σ, inr r')
    ∧ <[r' := g']> σ !! 1%positive = Some g
    ∧ nodes (base g') !! 1
      = Some {[ "scopus_id" := VStr "1"; "paper_title" := VStr "A" ]}.
Proof.
  intros g σ.
  destruct (C9_export_purity σ 1%positive g)
    as (r' & g' & E & _ & _ & Hr & _ & _ & _ & _ & Hn).
  - apply lookup_singleton_eq.
  - intros n d Hd.
    assert (Hall : map_Forall (λ (_ : Z) (d : gmap string value),
                     is_Some (d !! "scopus_id") ∧ is_Some (d !! "title"))
                   (nodes (base g))).
    { apply (bool_decide_unpack _). vm_compute. exact I. }
    exact (Hall n d Hd).
  - exists r', g'. split; [exact E|]. split; [exact Hr|].
    assert (HA : nodes (base g) !! 1 = Some (graph_properties_as_dict pA)).
    { vm_compute. reflexivity. }
    destruct (Hn 1 (graph_properties_as_dict pA) HA) as
      (d' & sid & t & Hd' & Hs & Ht & Hs' & Hp' & Ht' & Hrest).
    transitivity (Some d'); [exact Hd'|]. f_equal. apply map_eq. intros key.
    injection Hs as <-. injection Ht as <-.
    destruct (decide (key = "scopus_id")) as [->|?]; [by rewrite Hs'|].
    destruct (decide (key = "paper_title")) as [->|?]; [by rewrite Hp'|].
    destruct (decide (key = "title")) as [->|?]; [by rewrite Ht'|].
    rewrite Hrest by done. simpl.
    by rewrite !lookup_insert_ne, !lookup_singleton_ne by done.
Defined.

Lemma C10_witness :
  edges (base (self (built ["id1"; "id2"] 2))) !! (1, 3) = Some ∅
  ∧ (∅ : gmap string value) !! "weight" = None.
Proof.
  assert (E : edges (base (self (built ["id1"; "id2"] 2))) !! (1, 3) = Some ∅).
  { vm_compute. reflexivity. }
  split; [exact E|].
  refine (proj1 (proj2 (C10_build_assigns_no_weight ["id1"; "id2"] true 2
                          (start 0%nat "CitationGraph"))) _ (1, 3) ∅ E).
  intros e d. simpl. by rewrite lookup_empty.
Defined.

(** A second build on the same object is outside the life cycle of the
    graph: its initialisation pass records the seeds at the depth the first
    build stopped at, and paper A ends up in the frontiers of depths 0
    and 1.  This is why [C1_frontier_disjointness] starts from a graph
    without recorded frontiers. *)
Example second_build_overlaps :
  let m1 := built ["id1"] 1 in
  let m2 := (build_from_ids ["id1"] true 0 m1).1 in
  (elements <$> papers_by_iter_depth (self m1) !! 0,
   elements <$> papers_by_iter_depth (self m1) !! 1,
   elements <$> papers_by_iter_depth (self m2) !! 0,
   elements <$> papers_by_iter_depth (self m2) !! 1)
  = (Some [pA], Some [pC], Some [pA], Some [pA]).
Proof. vm_compute. reflexivity. Qed.

(** ** The further properties at work *)

Lemma X1_witness :
  NoDup [1; 2]
  ∧ add_cit_graph_nodes DiGraph_empty [(2, {["title" := VStr "B"]}); (1, ∅)]
    = add_cit_graph_nodes DiGraph_empty [(1, ∅); (2, {["title" := VStr "B"]})].
Proof.
  assert (Hnd : NoDup [1; 2]).
  { apply (bool_decide_unpack _). vm_compute. exact I. }
  split; [exact Hnd|].
  apply (proj2 (proj2 (X1_node_upserts_first_wins DiGraph_empty
                         [(1, ∅); (2, {["title" := VStr "B"]})]))).
  - exact Hnd.
  - apply perm_swap.
Defined.

Lemma X2_witness :
  nodes DiGraph_empty !! 5 = None
  ∧ nodes (add_cit_graph_edge DiGraph_empty 5 {["title" := VStr "parent"]}
             5 {["title" := VStr "child"]} None) !! 5
    = Some {["title" := VStr "parent"]}.
Proof.
  split; [reflexivity|].
  apply (proj1 (proj2 (X2_edge_upsert_composition DiGraph_empty 5
                         {["title" := VStr "parent"]} 5
                         {["title" := VStr "child"]} None))).
  reflexivity.
Defined.

Lemma X3_witness :
  [Some 1; None; Some 7; None] ≠ []
  ∧ ∃ d, edges (add_cit_graph_edge_many DiGraph_empty 1 ∅ 2 ∅
                  [Some 1; None; Some 7; None]) !! (1, 2) = Some d
         ∧ d !! "weight" = Some (VInt 7).
Proof.
  split; [discriminate|].
  destruct (X3_edge_last_weight_wins DiGraph_empty 1 ∅ 2 ∅
              [Some 1; None; Some 7; None]) as (d & Hd & Hw & _);
    [discriminate|].
  exists d. split; [exact Hd|exact Hw].
Defined.

Lemma X4_witness :
  let tr := build_trace ["id1"; "id2"] true 2 (start 0%nat "CitationGraph") in
  tr !! 0%nat = Some (start 0%nat "CitationGraph")
  ∧ tr !! pred (length tr) = Some (built ["id1"; "id2"] 2)
  ∧ (0 ≤ pred (length tr))%nat
  ∧ history (start 0%nat "CitationGraph" : machine paper nat)
    `prefix_of` history (built ["id1"; "id2"] 2).
Proof.
  intros tr.
  assert (H0 : tr !! 0%nat = Some (start 0%nat "CitationGraph")) by reflexivity.
  assert (Hl : tr !! pred (length tr) = Some (built ["id1"; "id2"] 2)).
  { rewrite <- last_lookup. apply build_trace_last. }
  split; [exact H0|]. split; [exact Hl|]. split; [lia|].
  apply (X4_build_only_grows ["id1"; "id2"] true 2 (start 0%nat "CitationGraph")
           0%nat (pred (length tr)) _ _ H0 Hl).
  lia.
Defined.

Lemma X5_witness :
  0 ≤ 1 ∧ use_doi (self (built ["id1"] 1)) = Some true.
Proof.
  split; [lia|].
  apply (proj1 (proj2 (X5_build_name_and_scheme ["id1"] true 1
                         (start 0%nat "CitationGraph")))).
  lia.
Defined.


Lemma X7_witness :
  let m := built ["id1"; "id2"] 0 in
  let refs := [(pA, Some pA); (pA, Some pC); (pA, None); (pB, Some pC)] in
  papers_by_iter_depth (self m) !! iter_depth (self m) = Some {[pA; pB]}
  ∧ get_refs_from_scopus (world m) {[pA; pB]} (iter_depth (self m) + 1)
    = (3%nat, refs)
  ∧ Forall (λ r, is_Some (nodes (base (self m)) !! scopus_id r.1)) refs
  ∧ ∃ m' ps,
      __iterate m = (m', inr ())
      ∧ papers_by_iter_depth (self m') !! (iter_depth (self m) + 1) = Some ps
      ∧ set_map scopus_id ps
        = dom (nodes (base (self m'))) ∖ dom (nodes (base (self m))).
Proof.
  intros m refs.
  assert (E : papers_by_iter_depth (self m) !! iter_depth (self m)
              = Some {[pA; pB]}) by (vm_compute; reflexivity).
  assert (Er : get_refs_from_scopus (world m) {[pA; pB]} (iter_depth (self m) + 1)
               = (3%nat, refs)) by (vm_compute; reflexivity).
  assert (Hpar : Forall (λ r, is_Some (nodes (base (self m)) !! scopus_id r.1)) refs).
  { apply (bool_decide_unpack _). vm_compute. exact I. }
  split; [exact E|]. split; [exact Er|]. split; [exact Hpar|].
  destruct (X7_pass_records_new_layer m {[pA; pB]} 3%nat refs E Er)
    as (m' & ps & Hit & Hps & _ & Hlayer).
  - intros pa c Hin. rewrite Forall_forall in Hpar. exact (Hpar (pa, c) Hin).
  - exists m', ps. split; [exact Hit|]. split; [exact Hps|exact Hlayer].
Defined.

Lemma X8_witness :
  papers_by_iter_depth (self (start 0%nat "CitationGraph" : machine paper nat)) = ∅
  ∧ ∀ d ps p q,
      0 < d →
      papers_by_iter_depth (self (built ["id1"; "id2"] 2)) !! d = Some ps →
      p ∈ ps → q ∈ ps → scopus_id p = scopus_id q → p = q.
Proof.
  split; [reflexivity|].
  apply (proj1 (X8_frontier_one_paper_per_id ["id1"; "id2"] true 2
                  (start 0%nat "CitationGraph") eq_refl)).
Defined.

Lemma X9_witness :
  let m := built ["id1"] 1 in
  0 ≤ 1
  ∧ resolve_seeds (world m) ["id2"] "doi" (iter_depth (self m))
    = (3%nat, [Some pB])
  ∧ ∃ m', build_from_ids ["id2"] true 1 m = (m', inr ())
          ∧ iter_depth (self m') = 2
          ∧ papers_by_iter_depth (self m') !! 1 = Some {[pB]}.
Proof.
  intros m.
  assert (Hr : resolve_seeds (world m) ["id2"] "doi" (iter_depth (self m))
               = (3%nat, [Some pB])) by (vm_compute; reflexivity).
  split; [lia|]. split; [exact Hr|].
  destruct (X9_build_on_any_graph ["id2"] true 1 m 3%nat [Some pB])
    as (m' & E & Hd & Hp & _); [lia|exact Hr|].
  exists m'. split; [exact E|]. split.
  - rewrite Hd. reflexivity.
  - etrans; [exact Hp|]. simpl. by rewrite (right_id_L ∅ (∪)).
Defined.

Lemma X10_witness :
  0 ≤ 2
  ∧ ∃ m' l,
      build_from_ids ["id1"; "id2"] true 2 (start 0%nat "CitationGraph")
      = (m', inr ())
      ∧ get_calls (history m') = [("id1", "doi", 0); ("id2", "doi", 0)]
      ∧ refs_calls (history m') = l
      ∧ l.*2 = [1; 2].
Proof.
  split; [lia|].
  destruct (X10_build_collaborator_calls ["id1"; "id2"] true 2
              (start 0%nat "CitationGraph"))
    as (m' & l & E & Hg & Hr & Hseq & _); [lia|].
  exists m', l. split; [exact E|]. split; [exact Hg|]. split; [exact Hr|exact Hseq].
Defined.

Lemma X11_witness :
  let g : CitationGraph paper :=
    with_base (λ _, add_cit_graph_node DiGraph_empty 1 {["scopus_id" := VInt 1]})
      (CitationGraph_init "CitationGraph") in
  let σ : gmap positive (CitationGraph paper) := {[1%positive := g]} in
  σ !! 1%positive = Some g
  ∧ ∃ key, (key = "scopus_id" ∨ key = "title")
           ∧ transform_graphistry σ 1%positive
             = Some (σ, inl (KeyError (VStr key))).
Proof.
  intros g σ.
  assert (Hr : σ !! 1%positive = Some g) by apply lookup_singleton_eq.
  split; [exact Hr|].
  apply (proj1 (X11_export_fails_on_missing_attribute σ 1%positive g Hr)).
  exists 1, {["scopus_id" := VInt 1]}. split; [vm_compute; reflexivity|].
  intros [_ [t Ht]]. vm_compute in Ht. discriminate.
Defined.

Lemma X12_witness :
  let g := self (built ["id1"] 0) in
  let σ : gmap positive (CitationGraph paper) := {[1%positive := g]} in
  σ !! 1%positive = Some g
  ∧ map_Forall (λ (_ : Z) d, has_export_attributes d) (nodes (base g))
  ∧ nodes (base g) ≠ ∅
  ∧ ∃ r' g',
      transform_graphistry σ 1%positive = Some (<[r' := g']> σ, inr r')
      ∧ transform_graphistry (<[r' := g']> σ) r'
        = Some (<[r' := g']> σ, inl (KeyError (VStr "title"))).
Proof.
  intros g σ.
  assert (Hr : σ !! 1%positive = Some g) by apply lookup_singleton_eq.
  assert (Hall : map_Forall (λ (_ : Z) (d : gmap string value),
                   is_Some (d !! "scopus_id") ∧ is_Some (d !! "title"))
                 (nodes (base g))).
  { apply (bool_decide_unpack _). vm_compute. exact I. }
  assert (Hne : nodes (base g) ≠ ∅).
  { intros Hem. apply (f_equal (λ ns, ns !! 1)) in Hem.
    vm_compute in Hem. discriminate. }
  split; [exact Hr|]. split; [exact Hall|]. split; [exact Hne|].
  exact (X12_export_of_an_export_fails σ 1%positive g Hr Hall Hne).
Defined.

Lemma X13_witness :
  let g := self (built ["id1"; "id2"] 1) in
  let σ : gmap positive (CitationGraph paper) := {[1%positive := g]} in
  σ !! 1%positive = Some g
  ∧ map_Forall (λ (_ : Z) d, has_export_attributes d) (nodes (base g))
  ∧ ∃ r' g',
      transform_graphistry σ 1%positive = Some (<[r' := g']> σ, inr r')
      ∧ name g' = name g
      ∧ __repr__ g' = __repr__ g.
Proof.
  intros g σ.
  assert (Hr : σ !! 1%positive = Some g) by apply lookup_singleton_eq.
  assert (Hall : map_Forall (λ (_ : Z) (d : gmap string value),
                   is_Some (d !! "scopus_id") ∧ is_Some (d !! "title"))
                 (nodes (base g))).
  { apply (bool_decide_unpack _). vm_compute. exact I. }
  split; [exact Hr|]. split; [exact Hall|].
  exact (X13_export_keeps_repr σ 1%positive g Hr Hall).
Defined.

Example demo_repr :
  __repr__ (self (built ["id1"; "id2"] 2))
  = "CitationGraph(name=CitationGraph, iter_depth=2, number of nodes: 3, number of edges: 4)".
Proof. vm_compute. reflexivity. Qed.
